(** * id_gen: a verification development for [src/id_gen/id_gen.go]

    The Go package is embedded shallowly.  Values of type [int64] and [int]
    are integers of [Z] with two's-complement wrap-around written out where
    the source can overflow ([<<] and [+]); the host (network interfaces,
    process id), the wall clock and the entropy source are explicit
    arguments of the functions that consult them. *)

From Stdlib Require Import ZArith List Lia Bool String Ascii.
From Stdlib.Strings Require Import Byte.
From stdpp Require Import base list.

Open Scope Z_scope.

(** ** 64-bit signed integers *)

Module Int64.

Definition min_int : Z := - 2 ^ 63.
Definition max_int : Z := 2 ^ 63 - 1.

Definition in_range (z : Z) : Prop := min_int <= z <= max_int.

(** The value of an arbitrary integer once stored in an [int64]. *)
Definition wrap (z : Z) : Z := (z + 2 ^ 63) mod 2 ^ 64 - 2 ^ 63.

(** [a + b] on [int64]. *)
Definition add (a b : Z) : Z := wrap (a + b).

(** [a << n] on [int64]. *)
Definition shl (a n : Z) : Z := wrap (Z.shiftl a n).

(** [a >> n] on [int64]: arithmetic shift, no overflow. *)
Definition shr (a n : Z) : Z := Z.shiftr a n.

End Int64.

(** ** The snowflake generator (id_gen.go, lines 88-133) *)

Module Snowflake.

(** [type SnowflakeGenerator struct].  The [mutex] field serialises whole
    calls of [GenerateSnowflakeID]; one call is therefore one atomic
    transition of the remaining three fields. *)
Record SnowflakeGenerator : Type := mkGen {
  lastTimestamp : Z;
  sequence : Z;
  machineID : Z
}.

(** [func NewSnowflakeGenerator(machineID int64) *SnowflakeGenerator] *)
Definition NewSnowflakeGenerator (machineID : Z) : SnowflakeGenerator :=
  {| lastTimestamp := 0;
     sequence := 0;
     machineID := Z.land machineID 0x3FF |}.

(** What one call of [GenerateSnowflakeID] sees of the outside world.

    - [now] is the value of [time.Now().UnixMilli()] on line 110;
    - [polls] are the values [time.Now().UnixMilli()] returns on line 122,
      one for each pass of the [select] through [default]; when the list is
      used up the channel of [time.After(time.Millisecond)] is ready and the
      next pass takes [case <-timeout];
    - [at_return] is the clock value at the moment the call returns.  The
      code never reads it; it is there to state bounds on the result. *)
Record Clock : Type := mkClock {
  now : Z;
  polls : list Z;
  at_return : Z
}.

(** The loop of lines 116-124,
<<
    for timestamp <= sg.lastTimestamp {
        select {
        case <-timeout: timestamp = sg.lastTimestamp + 1
        default:        timestamp = time.Now().UnixMilli()
        }
    }
>>
    The timer channel delivers exactly one value.  After it has been
    received the guard is tested with [lastTimestamp + 1]; should that
    addition have wrapped (only when [lastTimestamp] is the largest
    [int64]) the guard still holds, no later receive can succeed and no
    [int64] reading exceeds [lastTimestamp]: the loop runs forever, which
    is the result [None]. *)
Fixpoint wait_next_millis (last : Z) (polls : list Z) (timestamp : Z) : option Z :=
  if timestamp <=? last then
    match polls with
    | reading :: rest => wait_next_millis last rest reading
    | [] =>
        let forced := Int64.add last 1 in
        if forced <=? last then None else Some forced
    end
  else Some timestamp.

(** Lines 110-128: the timestamp and the sequence number the call settles on. *)
Definition next_slot (sg : SnowflakeGenerator) (c : Clock) : option (Z * Z) :=
  let timestamp := now c in
  if timestamp =? lastTimestamp sg then
    let seq := Z.land (Int64.add (sequence sg) 1) 0xFFF in
    if seq =? 0 then
      match wait_next_millis (lastTimestamp sg) (polls c) timestamp with
      | Some timestamp' => Some (timestamp', seq)
      | None => None
      end
    else Some (timestamp, seq)
  else Some (timestamp, 0).

(** Line 132: [(timestamp << 22) | (sg.machineID << 12) | sg.sequence]. *)
Definition compose (timestamp machine seq : Z) : Z :=
  Z.lor (Z.lor (Int64.shl timestamp 22) (Int64.shl machine 12)) seq.

(** [func (sg *SnowflakeGenerator) GenerateSnowflakeID() int64].
    The result is the returned identifier with the generator as the call
    leaves it, or [None] when the call never returns. *)
Definition GenerateSnowflakeID (sg : SnowflakeGenerator) (c : Clock)
  : option (Z * SnowflakeGenerator) :=
  match next_slot sg c with
  | Some (timestamp, seq) =>
      Some (compose timestamp (machineID sg) seq,
            {| lastTimestamp := timestamp;
               sequence := seq;
               machineID := machineID sg |})
  | None => None
  end.

(** Consecutive calls on one generator, one [Clock] per call; the
    identifiers come out in the order the calls returned. *)
Fixpoint mint_all (sg : SnowflakeGenerator) (cs : list Clock)
  : option (list Z * SnowflakeGenerator) :=
  match cs with
  | [] => Some ([], sg)
  | c :: rest =>
      match GenerateSnowflakeID sg c with
      | Some (id, sg') =>
          match mint_all sg' rest with
          | Some (ids, sg'') => Some (id :: ids, sg'')
          | None => None
          end
      | None => None
      end
  end.

(** The three fields of an identifier, read back as the layout of line 132
    prescribes: [id >> 22], [(id >> 12) & 0x3FF] and [id & 0xFFF]. *)
Definition timestamp_of (id : Z) : Z := Int64.shr id 22.
Definition machine_of (id : Z) : Z := Z.land (Int64.shr id 12) 0x3FF.
Definition sequence_of (id : Z) : Z := Z.land id 0xFFF.

(** Along the calls [cs] no call starts with a clock reading below the
    timestamp the generator used last. *)
Fixpoint clock_never_behind (sg : SnowflakeGenerator) (cs : list Clock) : Prop :=
  match cs with
  | [] => True
  | c :: rest =>
      lastTimestamp sg <= now c /\
      match GenerateSnowflakeID sg c with
      | Some (_, sg') => clock_never_behind sg' rest
      | None => True
      end
  end.

(** The fields of a generator stay within their bit widths. *)
Definition wf (sg : SnowflakeGenerator) : Prop :=
  0 <= sequence sg < 2 ^ 12 /\ 0 <= machineID sg < 2 ^ 10.

(** The generators a program can hold: built by [NewSnowflakeGenerator d]
    and then only touched by [GenerateSnowflakeID]. *)
Inductive reachable (d : Z) : SnowflakeGenerator -> Prop :=
| reach_new : reachable d (NewSnowflakeGenerator d)
| reach_mint sg c id sg' :
    reachable d sg ->
    GenerateSnowflakeID sg c = Some (id, sg') ->
    reachable d sg'.

(** Every clock value of the call is a timestamp the 41-bit field holds,
    with room for one forced advance. *)
Definition fits_field (c : Clock) : Prop :=
  Forall (fun r => 0 <= r < 2 ^ 41 - 1) (now c :: polls c).

(** No reading taken during the call is later than the clock at return. *)
Definition no_later_than_return (c : Clock) : Prop :=
  Forall (fun r => r <= at_return c) (now c :: polls c).

(** The identifier a generator would return for its current fields: after
    a call, the identifier that call returned. *)
Definition watermark (sg : SnowflakeGenerator) : Z :=
  compose (lastTimestamp sg) (machineID sg) (sequence sg).

(** The three ways a call settles on its timestamp and sequence number. *)
Inductive slot_case (sg : SnowflakeGenerator) (c : Clock) (ts seq : Z) : Prop :=
| slot_fresh :
    now c <> lastTimestamp sg -> ts = now c -> seq = 0 ->
    slot_case sg c ts seq
| slot_same :
    now c = lastTimestamp sg -> sequence sg < 2 ^ 12 - 1 ->
    ts = now c -> seq = sequence sg + 1 ->
    slot_case sg c ts seq
| slot_exhausted :
    now c = lastTimestamp sg -> sequence sg = 2 ^ 12 - 1 -> seq = 0 ->
    lastTimestamp sg < ts ->
    In ts (polls c) \/ ts = lastTimestamp sg + 1 ->
    slot_case sg c ts seq.

(** A clock that shows the same millisecond [t] for the whole call,
    polled [n] times before the timer fires. *)
Definition stalled (t : Z) (n : nat) : Clock :=
  {| now := t; polls := repeat t n; at_return := t |}.

(** A clock that shows [t] and is not polled: should the call have to
    wait, the timer has fired before the first pass of the loop. *)
Definition tick (t : Z) : Clock :=
  {| now := t; polls := []; at_return := t |}.

End Snowflake.

(** ** The node identity resolver (id_gen.go, lines 60-86) *)

Module MachineID.

(** Go's [error] values, by their message; [None] is [nil]. *)
Definition error : Type := string.

(** [net.IP]: a slice of bytes, of length 4 or 16 when well formed. *)
Definition IP : Type := list byte.

(** The implementations of the interface [net.Addr] that
    [net.InterfaceAddrs] hands out. *)
Inductive Addr : Type :=
| IPNet (ip : IP) (mask : list byte)
| IPAddr (ip : IP) (zone : string).

Fixpoint bytes_equal (a b : list byte) : bool :=
  match a, b with
  | [], [] => true
  | x :: a', y :: b' => Byte.eqb x y && bytes_equal a' b'
  | _, _ => false
  end.

Definition isZeros (p : list byte) : bool := forallb (Byte.eqb x00) p.

Definition v4InV6Prefix : list byte :=
  [x00; x00; x00; x00; x00; x00; x00; x00; x00; x00; xff; xff].

Definition IPv6loopback : IP :=
  [x00; x00; x00; x00; x00; x00; x00; x00;
   x00; x00; x00; x00; x00; x00; x00; x01].

(** [func (ip IP) To4() IP] of package [net]; [None] is the [nil] slice. *)
Definition To4 (ip : IP) : option IP :=
  if (length ip =? 4)%nat then Some ip
  else if (length ip =? 16)%nat
          && isZeros (take 10 ip)
          && Byte.eqb (nth 10 ip x00) xff
          && Byte.eqb (nth 11 ip x00) xff
       then Some (drop 12 ip)
       else None.

(** [func (ip IP) Equal(x IP) bool] of package [net]. *)
Definition Equal (ip x : IP) : bool :=
  if (length ip =? length x)%nat then bytes_equal ip x
  else if (length ip =? 4)%nat && (length x =? 16)%nat
       then bytes_equal (take 12 x) v4InV6Prefix && bytes_equal ip (drop 12 x)
  else if (length ip =? 16)%nat && (length x =? 4)%nat
       then bytes_equal (take 12 ip) v4InV6Prefix && bytes_equal (drop 12 ip) x
  else false.

(** [func (ip IP) IsLoopback() bool] of package [net]. *)
Definition IsLoopback (ip : IP) : bool :=
  match To4 ip with
  | Some ip4 => Byte.eqb (nth 0 ip4 x00) x7f
  | None => Equal ip IPv6loopback
  end.

(** What the resolver asks the operating system: the result of
    [net.InterfaceAddrs()] and the result of [os.Getpid()]. *)
Record Host : Type := mkHost {
  InterfaceAddrs : list Addr * option error;
  Getpid : Z
}.

(** The [for _, addr := range addrs] loop of lines 78-84 followed by the
    [return 0, nil] of line 85. *)
Fixpoint first_ipv4_octet (addrs : list Addr) : Z * option error :=
  match addrs with
  | [] => (0, None)
  | addr :: rest =>
      match addr with
      | IPNet ip _ =>
          if negb (IsLoopback ip) then
            match To4 ip with
            | Some ipv4 => (Z.of_N (Byte.to_N (nth 3 ipv4 x00)), None)
            | None => first_ipv4_octet rest
            end
          else first_ipv4_octet rest
      | IPAddr _ _ => first_ipv4_octet rest
      end
  end.

(** [func getLastIPOctet() (int, error)] *)
Definition getLastIPOctet (h : Host) : Z * option error :=
  match InterfaceAddrs h with
  | (_, Some err) => (0, Some err)
  | (addrs, None) => first_ipv4_octet addrs
  end.

(** [func getMachineID() int64]; [%] is Go's truncated remainder. *)
Definition getMachineID (h : Host) : Z :=
  match getLastIPOctet h with
  | (ip, None) => ip
  | (_, Some _) => Z.rem (Getpid h) 1024
  end.

(** An address the loop of [getLastIPOctet] stops at: an [*net.IPNet]
    whose IP is not a loopback address and has a 4-byte form. *)
Definition qualifies (addr : Addr) : bool :=
  match addr with
  | IPNet ip _ => negb (IsLoopback ip) && bool_decide (is_Some (To4 ip))
  | IPAddr _ _ => false
  end.

End MachineID.

(** ** Random hex strings (id_gen.go, lines 32-38) *)

Module RandomHex.

(** How a Go call ends: with a value, in a run-time panic (which a caller
    may recover), or with the process ended by a fatal error of the
    runtime. *)
Inductive outcome (A : Type) : Type :=
| Returns (a : A)
| Panics (msg : string)
| Aborts (msg : string).
Arguments Returns {A} a.
Arguments Panics {A} msg.
Arguments Aborts {A} msg.

Definition bind {A B : Type} (o : outcome A) (k : A -> outcome B) : outcome B :=
  match o with
  | Returns a => k a
  | Panics msg => Panics msg
  | Aborts msg => Aborts msg
  end.

(** What the allocator of the Go runtime can do for the process:
    [maxAlloc] is the platform's constant of that name, the largest size
    [makeslice] accepts (1 << 48 on linux/amd64); [has_memory size] tells
    whether the heap can still provide [size] bytes. *)
Record Runtime : Type := mkRuntime {
  maxAlloc : N;
  has_memory : Z -> bool
}.

(** [runtime.mallocgc]: nothing is allocated for size 0; a size the heap
    cannot provide ends the process. *)
Definition mallocgc (rt : Runtime) (size : Z) : outcome unit :=
  if size =? 0 then Returns tt
  else if has_memory rt size then Returns tt
  else Aborts "fatal error: out of memory".

(** [make([]byte, n)]: [runtime.makeslice] panics for a negative length
    and for one above [maxAlloc]; otherwise the slice is allocated and
    zeroed. *)
Definition make_bytes (rt : Runtime) (n : Z) : outcome (list byte) :=
  if (n <? 0) || (Z.of_N (maxAlloc rt) <? n)
  then Panics "panic: runtime error: makeslice: len out of range"
  else bind (mallocgc rt n) (fun _ => Returns (repeat x00 (Z.to_nat n))).

(** The entropy source as one call of [crypto/rand.Read] meets it: it
    delivers bytes, the [i]-th one being [src i]; or the read fails and
    [Read] returns the error (toolchains up to go1.23); or the read fails
    and [Read] ends the process with a fatal error (toolchains from go1.24
    on, where [Read] never returns an error). *)
Inductive Entropy : Type :=
| Supplies (src : nat -> byte)
| Fails (err : string)
| Crashes (msg : string).

(** [rand.Read(b)]: the slice as the call leaves it, with [n] and [err].
    Nothing is read for an empty slice, so that call cannot fail; for any
    other, [err] is [nil] exactly when the whole of [b] has been filled. *)
Definition rand_Read (e : Entropy) (b : list byte)
  : outcome (list byte * (Z * option string)) :=
  match b with
  | [] => Returns ([], (0, None))
  | _ :: _ =>
      match e with
      | Supplies src =>
          Returns (map src (seq 0 (length b)), (Z.of_nat (length b), None))
      | Fails err => Returns (b, (0, Some err))
      | Crashes msg => Aborts msg
      end
  end.

(** [const hextable] of package [encoding/hex]. *)
Definition hextable : string := "0123456789abcdef".

(** [hextable[i]] *)
Definition hextable_at (i : N) : ascii :=
  match String.get (N.to_nat i) hextable with
  | Some ch => ch
  | None => "000"%char
  end.

(** [hex.Encode]: the characters written to [dst], for each byte [v] of
    the source [hextable[v>>4]] and then [hextable[v&0x0f]]. *)
Fixpoint Encode (src : list byte) : string :=
  match src with
  | [] => EmptyString
  | v :: rest =>
      String (hextable_at (N.shiftr (Byte.to_N v) 4))
        (String (hextable_at (N.land (Byte.to_N v) 0x0f))
           (Encode rest))
  end.

(** [hex.EncodedLen(n)]: [n * 2] on [int]. *)
Definition EncodedLen (n : Z) : Z := Int64.wrap (n * 2).

(** [hex.EncodeToString]:
<<
    dst := make([]byte, EncodedLen(len(src)))
    Encode(dst, src)
    return string(dst)
>>
    the conversion to [string] allocating a copy of [dst]. *)
Definition EncodeToString (rt : Runtime) (src : list byte) : outcome string :=
  bind (make_bytes rt (EncodedLen (Z.of_nat (length src)))) (fun _ =>
  bind (mallocgc rt (EncodedLen (Z.of_nat (length src)))) (fun _ =>
  Returns (Encode src))).

(** [func GenerateRandomHexString(length int) string] *)
Definition GenerateRandomHexString (rt : Runtime) (length : Z) (e : Entropy)
  : outcome string :=
  bind (make_bytes rt length) (fun bytes =>
  bind (rand_Read e bytes) (fun r =>
  match r with
  | (_, (_, Some err)) => Returns EmptyString
  | (bytes', (_, None)) => EncodeToString rt bytes'
  end)).

(** A lowercase hexadecimal digit: ['0'..'9'] or ['a'..'f']. *)
Definition is_lower_hex (ch : ascii) : bool :=
  let n := N_of_ascii ch in
  ((48 <=? n) && (n <=? 57) || (97 <=? n) && (n <=? 102))%N.

Fixpoint all_chars (p : ascii -> bool) (s : string) : bool :=
  match s with
  | EmptyString => true
  | String ch rest => p ch && all_chars p rest
  end.

(** The allocator of a 64-bit Linux process with memory to spare. *)
Definition linux_amd64 : Runtime :=
  {| maxAlloc := 2 ^ 48; has_memory := fun _ => true |}.

End RandomHex.

(** ** The generator registry (id_gen.go, lines 26-30 and 49-58) *)

Module Registry.
Import Snowflake MachineID.

(** Where a call of the package-level [GenerateSnowflakeID] stands.  The
    points inside [once.Do] are those of [sync.Once] as package [sync]
    writes it:
<<
    func (o *Once) Do(f func()) {
        if o.done.Load() == 0 { o.doSlow(f) }
    }
    func (o *Once) doSlow(f func()) {
        o.m.Lock()
        defer o.m.Unlock()
        if o.done.Load() == 0 {
            defer o.done.Store(1)
            f()
        }
    }
>>
    with [f] being [initSnowflakeGenerator]; the points after it are those
    of line 29, [snowflakeGenerator.GenerateSnowflakeID()], whose body runs
    between [sg.mutex.Lock()] and the deferred [sg.mutex.Unlock()]. *)
Inductive pc : Type :=
| AtDo                      (* o.done.Load() == 0 ? *)
| AtLock                    (* o.m.Lock() *)
| AtRecheck                 (* o.done.Load() == 0 ? under o.m *)
| AtGetMachineID            (* machineID := getMachineID() *)
| AtNew (machineID : Z)     (* snowflakeGenerator = NewSnowflakeGenerator(machineID) *)
| AtStore                   (* o.done.Store(1) *)
| AtUnlock                  (* o.m.Unlock() *)
| AtMint                    (* read the variable snowflakeGenerator *)
| AtMintLock (sg : nat)     (* sg.mutex.Lock() *)
| AtMintBody (sg : nat)     (* lines 110-132, then sg.mutex.Unlock() *)
| Returned (sg : nat) (id : Z)
| Crashed.                  (* nil pointer dereference *)

(** A generator in memory, with its [mutex] field. *)
Record Instance : Type := mkInstance {
  gen : SnowflakeGenerator;
  mutex : bool
}.

(** The process: the generators allocated so far (a pointer is a position
    in [heap]), the package variables [snowflakeGenerator] and [once], and
    the calls of [GenerateSnowflakeID] in flight, one entry per call.
    [once_m] names the call that holds the mutex of [once]. *)
Record Process : Type := mkProcess {
  heap : list Instance;
  snowflakeGenerator : option nat;
  once_done : bool;
  once_m : option nat;
  callers : list pc
}.

Definition goto (tid : nat) (l : pc) (p : Process) : Process :=
  {| heap := heap p;
     snowflakeGenerator := snowflakeGenerator p;
     once_done := once_done p;
     once_m := once_m p;
     callers := <[tid := l]> (callers p) |}.

Definition set_once_m (holder : option nat) (p : Process) : Process :=
  {| heap := heap p;
     snowflakeGenerator := snowflakeGenerator p;
     once_done := once_done p;
     once_m := holder;
     callers := callers p |}.

Definition set_once_done (p : Process) : Process :=
  {| heap := heap p;
     snowflakeGenerator := snowflakeGenerator p;
     once_done := true;
     once_m := once_m p;
     callers := callers p |}.

Definition store (sg : nat) (inst : Instance) (p : Process) : Process :=
  {| heap := <[sg := inst]> (heap p);
     snowflakeGenerator := snowflakeGenerator p;
     once_done := once_done p;
     once_m := once_m p;
     callers := callers p |}.

(** [snowflakeGenerator = NewSnowflakeGenerator(machineID)]: a new
    generator is allocated and the variable made to point to it. *)
Definition construct (machineID : Z) (p : Process) : Process :=
  {| heap := heap p ++ [mkInstance (NewSnowflakeGenerator machineID) false];
     snowflakeGenerator := Some (length (heap p));
     once_done := once_done p;
     once_m := once_m p;
     callers := callers p |}.

(** One atomic action of the call [tid], chosen by the scheduler; [clk] is
    the clock as the call sees it should the action be the body of the
    method.  A call that is blocked on a mutex, has returned or has
    crashed leaves the process as it is. *)
Definition step (h : Host) (tid : nat) (clk : Clock) (p : Process) : Process :=
  match callers p !! tid with
  | None => p
  | Some AtDo => goto tid (if once_done p then AtMint else AtLock) p
  | Some AtLock =>
      match once_m p with
      | Some _ => p
      | None => goto tid AtRecheck (set_once_m (Some tid) p)
      end
  | Some AtRecheck =>
      goto tid (if once_done p then AtUnlock else AtGetMachineID) p
  | Some AtGetMachineID => goto tid (AtNew (getMachineID h)) p
  | Some (AtNew machineID) => goto tid AtStore (construct machineID p)
  | Some AtStore => goto tid AtUnlock (set_once_done p)
  | Some AtUnlock => goto tid AtMint (set_once_m None p)
  | Some AtMint =>
      match snowflakeGenerator p with
      | None => goto tid Crashed p
      | Some sg => goto tid (AtMintLock sg) p
      end
  | Some (AtMintLock sg) =>
      match heap p !! sg with
      | None => goto tid Crashed p
      | Some inst =>
          if mutex inst then p
          else goto tid (AtMintBody sg) (store sg (mkInstance (gen inst) true) p)
      end
  | Some (AtMintBody sg) =>
      match heap p !! sg with
      | None => goto tid Crashed p
      | Some inst =>
          match Snowflake.GenerateSnowflakeID (gen inst) clk with
          | None => p
          | Some (id, gen') =>
              goto tid (Returned sg id) (store sg (mkInstance gen' false) p)
          end
      end
  | Some (Returned _ _) => p
  | Some Crashed => p
  end.

(** The process at start: nothing allocated, [snowflakeGenerator] nil,
    [once] unused, and [n] calls about to begin. *)
Definition start (n : nat) : Process :=
  {| heap := [];
     snowflakeGenerator := None;
     once_done := false;
     once_m := None;
     callers := replicate n AtDo |}.

(** The process after the scheduler has run the calls in the order
    [schedule], one atomic action at a time. *)
Fixpoint run (h : Host) (schedule : list (nat * Clock)) (p : Process) : Process :=
  match schedule with
  | [] => p
  | (tid, clk) :: rest => run h rest (step h tid clk p)
  end.

(** The call has come out of [once.Do]. *)
Definition past_once (l : pc) : bool :=
  match l with
  | AtMint | AtMintLock _ | AtMintBody _ | Returned _ _ | Crashed => true
  | _ => false
  end.

Section Invariant.
Variable h : Host.

(** One generator exists, [snowflakeGenerator] points to it, and its
    discriminator is the resolver's output, masked. *)
Definition constructed (p : Process) : Prop :=
  length (heap p) = 1%nat /\
  snowflakeGenerator p = Some 0%nat /\
  exists inst, heap p !! 0%nat = Some inst /\
               machineID (gen inst) = Z.land (getMachineID h) 0x3FF.

Definition unconstructed (p : Process) : Prop :=
  heap p = [] /\ snowflakeGenerator p = None.

(** What holds of the shared state when call [tid] stands at [l]. *)
Definition pc_ok (p : Process) (tid : nat) (l : pc) : Prop :=
  match l with
  | AtDo | AtLock => True
  | AtRecheck => once_m p = Some tid
  | AtGetMachineID =>
      once_m p = Some tid /\ once_done p = false /\ unconstructed p
  | AtNew machineID =>
      once_m p = Some tid /\ once_done p = false /\ unconstructed p /\
      machineID = getMachineID h
  | AtStore => once_m p = Some tid /\ once_done p = false /\ constructed p
  | AtUnlock => once_m p = Some tid /\ once_done p = true
  | AtMint => once_done p = true
  | AtMintLock sg | AtMintBody sg | Returned sg _ =>
      once_done p = true /\ sg = 0%nat
  | Crashed => False
  end.

Record inv (p : Process) : Prop := mkInv {
  inv_pcs : forall tid l, callers p !! tid = Some l -> pc_ok p tid l;
  inv_done : once_done p = true -> constructed p;
  inv_fresh :
    once_done p = false ->
    unconstructed p \/ exists tid, callers p !! tid = Some AtStore
}.

End Invariant.

End Registry.

(** ** Prefixed identifiers (id_gen.go, lines 22-24) *)

Module Prefixed.

(** [func GenerateUuidWithPrefix(prefix string) string], with [uuid] the
    text its call of [GenerateUUID()] returned:
    [prefix + "-" + GenerateUUID()]. *)
Definition GenerateUuidWithPrefix (prefix : string) (uuid : string) : string :=
  ((prefix ++ "-") ++ uuid)%string.

(** The length of the canonical text of a UUID, 8-4-4-4-12 hexadecimal
    digits with four dashes. *)
Definition uuid_text_length : nat := 36.

End Prefixed.

(** ** Reading hexadecimal text back *)

Module HexDecode.
Import RandomHex.

(** The position of a character in [hextable]. *)
Fixpoint index_in (ch : ascii) (table : string) : option N :=
  match table with
  | EmptyString => None
  | String x rest =>
      if Ascii.eqb ch x then Some 0%N
      else option_map N.succ (index_in ch rest)
  end.

(** The byte two hexadecimal digits stand for. *)
Definition byte_of_digits (hi lo : ascii) : option byte :=
  match index_in hi hextable, index_in lo hextable with
  | Some h, Some l => Byte.of_N (16 * h + l)
  | _, _ => None
  end.

(** The bytes a string of lowercase hexadecimal digits stands for: the
    inverse of [Encode]. *)
Fixpoint decode (s : string) : option (list byte) :=
  match s with
  | EmptyString => Some []
  | String hi (String lo rest) =>
      match byte_of_digits hi lo, decode rest with
      | Some v, Some vs => Some (v :: vs)
      | _, _ => None
      end
  | String _ EmptyString => None
  end.

End HexDecode.

(** ** The identifiers the registry hands out *)

Module RegistryJournal.
Import Snowflake MachineID Registry.

(** The identifier the action of call [tid] hands out, if that action is
    the body of the method running to its [return] (line 132). *)
Definition handed_out (tid : nat) (clk : Clock) (p : Process) : option Z :=
  match callers p !! tid with
  | Some (AtMintBody sg) =>
      match heap p !! sg with
      | Some inst =>
          option_map fst (Snowflake.GenerateSnowflakeID (gen inst) clk)
      | None => None
      end
  | _ => None
  end.

(** The returns of the method along a schedule, in the order they happen:
    which call, the clock it saw, the identifier it got. *)
Fixpoint journal (h : Host) (schedule : list (nat * Clock)) (p : Process)
  : list (nat * Clock * Z) :=
  match schedule with
  | [] => []
  | (tid, clk) :: rest =>
      match handed_out tid clk p with
      | Some id => (tid, clk, id) :: journal h rest (step h tid clk p)
      | None => journal h rest (step h tid clk p)
      end
  end.

Definition entry_call (e : nat * Clock * Z) : nat := fst (fst e).
Definition entry_clock (e : nat * Clock * Z) : Clock := snd (fst e).
Definition entry_id (e : nat * Clock * Z) : Z := snd e.

(** The generator behind [snowflakeGenerator]: the one in memory or,
    before [initSnowflakeGenerator] has run, the one it is going to build. *)
Definition current (h : Host) (p : Process) : SnowflakeGenerator :=
  match heap p !! 0%nat with
  | Some inst => gen inst
  | None => NewSnowflakeGenerator (getMachineID h)
  end.

(** Call [tid] has returned with identifier [id]. *)
Definition returned_with (p : Process) (tid : nat) (id : Z) : Prop :=
  exists sg, callers p !! tid = Some (Returned sg id).

End RegistryJournal.

(** ** The two mutexes of the registry *)

Module RegistryLocks.
Import Snowflake MachineID Registry.

(** The call is inside [doSlow], between [o.m.Lock()] and [o.m.Unlock()]. *)
Definition in_doSlow (l : pc) : bool :=
  match l with
  | AtRecheck | AtGetMachineID | AtNew _ | AtStore | AtUnlock => true
  | _ => false
  end.

(** The call is inside the method, between [sg.mutex.Lock()] and the
    deferred [sg.mutex.Unlock()]. *)
Definition in_body (l : pc) : bool :=
  match l with
  | AtMintBody _ => true
  | _ => false
  end.

(** The call has nothing left to do. *)
Definition finished (l : pc) : bool :=
  match l with
  | Returned _ _ => true
  | _ => false
  end.

(** Each mutex is held exactly by the call that stands behind it. *)
Record locks_ok (p : Process) : Prop := mkLocks {
  once_holder :
    forall t, once_m p = Some t ->
              exists l, callers p !! t = Some l /\ in_doSlow l = true;
  body_holds :
    forall i l, callers p !! i = Some l -> in_body l = true ->
                exists inst, heap p !! 0%nat = Some inst /\ mutex inst = true;
  body_alone :
    forall i j li lj,
      callers p !! i = Some li -> callers p !! j = Some lj ->
      in_body li = true -> in_body lj = true -> i = j;
  mutex_holder :
    forall inst, heap p !! 0%nat = Some inst -> mutex inst = true ->
                 exists i l, callers p !! i = Some l /\ in_body l = true
}.

End RegistryLocks.

(** ** Facts about 64-bit arithmetic *)

Module Int64Facts.
Import Int64.

Lemma wrap_in_range (z : Z) : in_range (wrap z).
Proof.
  unfold in_range, wrap, min_int, max_int.
  pose proof (Z.mod_pos_bound (z + 2 ^ 63) (2 ^ 64)). lia.
Qed.

Lemma wrap_id (z : Z) : in_range z -> wrap z = z.
Proof.
  unfold in_range, wrap, min_int, max_int. intros Hz.
  rewrite Z.mod_small; lia.
Qed.

(** Wrapping changes an integer by a multiple of [2 ^ 64]. *)
Lemma wrap_congruent (z : Z) : exists q, wrap z = z - q * 2 ^ 64.
Proof.
  exists ((z + 2 ^ 63) / 2 ^ 64). unfold wrap.
  pose proof (Z.div_mod (z + 2 ^ 63) (2 ^ 64)). lia.
Qed.

(** A left shift by 22, wrapped or not, leaves the low 22 bits clear. *)
Lemma shl_22_multiple (a : Z) : exists k, shl a 22 = k * 2 ^ 22.
Proof.
  unfold shl. rewrite Z.shiftl_mul_pow2 by lia.
  destruct (wrap_congruent (a * 2 ^ 22)) as [q Hq].
  exists (a - q * 2 ^ 42). rewrite Hq.
  change (2 ^ 64) with (2 ^ 42 * 2 ^ 22). ring.
Qed.

Lemma shl_22_exact (a : Z) : - 2 ^ 41 <= a < 2 ^ 41 -> shl a 22 = a * 2 ^ 22.
Proof.
  intros Ha. unfold shl. rewrite Z.shiftl_mul_pow2 by lia.
  apply wrap_id. unfold in_range, min_int, max_int. lia.
Qed.

Lemma shl_12_exact (m : Z) : 0 <= m < 2 ^ 10 -> shl m 12 = m * 2 ^ 12.
Proof.
  intros Hm. unfold shl. rewrite Z.shiftl_mul_pow2 by lia.
  apply wrap_id. unfold in_range, min_int, max_int. lia.
Qed.

Lemma add_1_exact (a : Z) : min_int <= a < max_int -> add a 1 = a + 1.
Proof.
  intros Ha. unfold add. apply wrap_id. unfold in_range. lia.
Qed.

Lemma add_1_max : add max_int 1 = min_int.
Proof. reflexivity. Qed.

(** [|] is [+] when the right operand fits below the left one's low bit. *)
Lemma lor_low_bits (k b n : Z) :
  0 <= n -> 0 <= b < 2 ^ n -> Z.lor (k * 2 ^ n) b = k * 2 ^ n + b.
Proof.
  intros Hn Hb.
  assert (Hdisj : Z.land (k * 2 ^ n) b = 0).
  { apply Z.bits_inj'. intros i Hi.
    rewrite Z.land_spec, Z.bits_0.
    destruct (Z.lt_ge_cases i n) as [Hlt | Hge].
    - rewrite Z.mul_pow2_bits_low by lia. reflexivity.
    - assert (Hbit : Z.testbit b i = false).
      { destruct (Z.eq_dec b 0) as [-> | Hb0]; [apply Z.bits_0 |].
        apply Z.bits_above_log2; [lia |].
        apply Z.lt_le_trans with n; [| lia].
        apply Z.log2_lt_pow2; lia. }
      rewrite Hbit. apply andb_false_r. }
  pose proof (Z.add_lor_land (k * 2 ^ n) b). lia.
Qed.

Lemma land_low_mask (a n : Z) : 0 <= n -> Z.land a (2 ^ n - 1) = a mod 2 ^ n.
Proof.
  intros Hn. rewrite <- Z.land_ones by lia.
  rewrite Z.ones_equiv. f_equal; lia.
Qed.

End Int64Facts.

(** ** Facts about the snowflake generator *)

Module SnowflakeFacts.
Import Int64 Int64Facts Snowflake.

Lemma land_mask_10 (m : Z) : 0 <= Z.land m 0x3FF < 2 ^ 10.
Proof.
  change 0x3FF with (2 ^ 10 - 1). rewrite land_low_mask by lia.
  apply Z.mod_pos_bound. lia.
Qed.

Lemma land_mask_12 (s : Z) : 0 <= Z.land s 0xFFF < 2 ^ 12.
Proof.
  change 0xFFF with (2 ^ 12 - 1). rewrite land_low_mask by lia.
  apply Z.mod_pos_bound. lia.
Qed.

Lemma new_wf (d : Z) : wf (NewSnowflakeGenerator d).
Proof.
  split; simpl; [lia | apply land_mask_10].
Qed.

(** *** The waiting loop *)

Lemma wait_next_millis_returns (last : Z) (ps : list Z) :
  min_int <= last < max_int ->
  forall ts, exists t,
    wait_next_millis last ps ts = Some t /\
    last < t /\
    (t = ts \/ In t ps \/ t = last + 1).
Proof.
  intros Hlast. induction ps as [| p ps IH]; intros ts; simpl.
  - destruct (Z.leb_spec ts last) as [Hle | Hgt].
    + rewrite add_1_exact by lia.
      destruct (Z.leb_spec (last + 1) last); [lia |].
      exists (last + 1). repeat split; auto; lia.
    + exists ts. repeat split; auto.
  - destruct (Z.leb_spec ts last) as [Hle | Hgt].
    + destruct (IH p) as (t & Ht & Hlt & Hcase).
      exists t. split; [exact Ht |]. split; [exact Hlt |].
      destruct Hcase as [-> | [Hin | ->]]; simpl; auto.
    + exists ts. repeat split; auto.
Qed.

(** At the largest [int64] the loop has no way out. *)
Lemma wait_next_millis_stuck (ps : list Z) :
  Forall in_range ps ->
  forall ts, in_range ts -> wait_next_millis max_int ps ts = None.
Proof.
  induction 1 as [| p ps Hp _ IH]; intros ts Hts; simpl.
  - destruct (Z.leb_spec ts max_int) as [_ | Hgt];
      [reflexivity | unfold in_range in Hts; lia].
  - destruct (Z.leb_spec ts max_int) as [_ | Hgt];
      [auto | unfold in_range in Hts; lia].
Qed.

(** *** One call *)

Lemma next_slot_sequence (sg : SnowflakeGenerator) (c : Clock) (ts seq : Z) :
  next_slot sg c = Some (ts, seq) -> 0 <= seq < 2 ^ 12.
Proof.
  unfold next_slot. intros H.
  pose proof (land_mask_12 (add (sequence sg) 1)) as Hm.
  destruct (now c =? lastTimestamp sg).
  - destruct (Z.land (add (sequence sg) 1) 0xFFF =? 0).
    + destruct (wait_next_millis _ _ _); inversion H; subst; exact Hm.
    + inversion H; subst; exact Hm.
  - inversion H; subst. lia.
Qed.

Lemma mint_inversion (sg : SnowflakeGenerator) (c : Clock) (id : Z)
    (sg' : SnowflakeGenerator) :
  GenerateSnowflakeID sg c = Some (id, sg') ->
  next_slot sg c = Some (lastTimestamp sg', sequence sg') /\
  machineID sg' = machineID sg /\
  id = compose (lastTimestamp sg') (machineID sg) (sequence sg').
Proof.
  unfold GenerateSnowflakeID. intros H.
  destruct (next_slot sg c) as [[ts seq] |]; [| discriminate].
  inversion H; subst; simpl. auto.
Qed.

Lemma mint_wf (sg : SnowflakeGenerator) (c : Clock) (id : Z)
    (sg' : SnowflakeGenerator) :
  wf sg -> GenerateSnowflakeID sg c = Some (id, sg') -> wf sg'.
Proof.
  intros [_ Hm] H. apply mint_inversion in H as (Hslot & Hid & _).
  split; [eapply next_slot_sequence; eauto | rewrite Hid; exact Hm].
Qed.

Lemma reachable_wf (d : Z) (sg : SnowflakeGenerator) :
  reachable d sg -> wf sg /\ machineID sg = Z.land d 0x3FF.
Proof.
  induction 1 as [| sg c id sg' _ [IHwf IHm] Hstep].
  - split; [apply new_wf | reflexivity].
  - split; [eapply mint_wf; eauto |].
    apply mint_inversion in Hstep as (_ & Hid & _). congruence.
Qed.

(** *** The layout of an identifier *)

Lemma compose_sum (ts m seq : Z) :
  0 <= m < 2 ^ 10 -> 0 <= seq < 2 ^ 12 ->
  exists k, shl ts 22 = k * 2 ^ 22 /\
            compose ts m seq = (k * 2 ^ 10 + m) * 2 ^ 12 + seq.
Proof.
  intros Hm Hseq. destruct (shl_22_multiple ts) as [k Hk].
  exists k. split; [exact Hk |].
  unfold compose. rewrite Hk, shl_12_exact by exact Hm.
  rewrite (lor_low_bits k (m * 2 ^ 12) 22) by lia.
  replace (k * 2 ^ 22 + m * 2 ^ 12) with ((k * 2 ^ 10 + m) * 2 ^ 12) by lia.
  apply lor_low_bits; lia.
Qed.

Lemma compose_exact (ts m seq : Z) :
  0 <= m < 2 ^ 10 -> 0 <= seq < 2 ^ 12 -> - 2 ^ 41 <= ts < 2 ^ 41 ->
  compose ts m seq = ts * 2 ^ 22 + m * 2 ^ 12 + seq.
Proof.
  intros Hm Hseq Hts. destruct (compose_sum ts m seq Hm Hseq) as (k & Hk & ->).
  rewrite shl_22_exact in Hk by exact Hts. lia.
Qed.

Lemma compose_machine (ts m seq : Z) :
  0 <= m < 2 ^ 10 -> 0 <= seq < 2 ^ 12 ->
  machine_of (compose ts m seq) = m.
Proof.
  intros Hm Hseq. destruct (compose_sum ts m seq Hm Hseq) as (k & _ & ->).
  unfold machine_of, shr. rewrite Z.shiftr_div_pow2 by lia.
  rewrite Z.div_add_l, (Z.div_small seq) by lia.
  change 0x3FF with (2 ^ 10 - 1). rewrite land_low_mask by lia.
  rewrite Z.add_0_r, Z.add_comm, Z.mod_add by lia.
  apply Z.mod_small; lia.
Qed.

Lemma compose_sequence (ts m seq : Z) :
  0 <= m < 2 ^ 10 -> 0 <= seq < 2 ^ 12 ->
  sequence_of (compose ts m seq) = seq.
Proof.
  intros Hm Hseq. destruct (compose_sum ts m seq Hm Hseq) as (k & _ & ->).
  unfold sequence_of.
  change 0xFFF with (2 ^ 12 - 1). rewrite land_low_mask by lia.
  rewrite Z.add_comm, Z.mod_add by lia.
  apply Z.mod_small; lia.
Qed.

Lemma compose_timestamp (ts m seq : Z) :
  0 <= m < 2 ^ 10 -> 0 <= seq < 2 ^ 12 -> - 2 ^ 41 <= ts < 2 ^ 41 ->
  timestamp_of (compose ts m seq) = ts.
Proof.
  intros Hm Hseq Hts. rewrite compose_exact by assumption.
  unfold timestamp_of, shr. rewrite Z.shiftr_div_pow2 by lia.
  rewrite <- Z.add_assoc, Z.div_add_l by lia.
  rewrite Z.div_small; lia.
Qed.

(** *** What one call does, case by case *)

Lemma next_sequence (seq : Z) :
  0 <= seq < 2 ^ 12 ->
  Z.land (add seq 1) 0xFFF = if seq =? 2 ^ 12 - 1 then 0 else seq + 1.
Proof.
  intros Hseq. rewrite add_1_exact by (unfold min_int, max_int; lia).
  change 0xFFF with (2 ^ 12 - 1). rewrite land_low_mask by lia.
  destruct (Z.eqb_spec seq (2 ^ 12 - 1)) as [-> | Hne]; [reflexivity |].
  apply Z.mod_small; lia.
Qed.

Lemma next_slot_cases (sg : SnowflakeGenerator) (c : Clock) (ts seq : Z) :
  wf sg -> min_int <= now c < max_int ->
  next_slot sg c = Some (ts, seq) -> slot_case sg c ts seq.
Proof.
  intros [Hseq _] Hnow. unfold next_slot. rewrite next_sequence by exact Hseq.
  destruct (Z.eqb_spec (now c) (lastTimestamp sg)) as [Heq | Hne].
  - destruct (Z.eqb_spec (sequence sg) (2 ^ 12 - 1)) as [Hfull | Hroom]; simpl.
    + destruct (wait_next_millis_returns (lastTimestamp sg) (polls c))
        with (ts := now c) as (t & -> & Hlt & Hfrom); [lia |].
      intros H; inversion H; subst.
      apply slot_exhausted; auto.
      destruct Hfrom as [-> | Hfrom]; [lia | exact Hfrom].
    + destruct (Z.eqb_spec (sequence sg + 1) 0); [lia |].
      intros H; inversion H; subst. apply slot_same; auto; lia.
  - intros H; inversion H; subst. apply slot_fresh; auto.
Qed.

(** The call settles on a slot whenever the clock it reads first is below
    the largest [int64]; the timestamp is that reading or, after an
    exhausted sequence, a later one: polled from the clock or forced. *)
Lemma next_slot_total (sg : SnowflakeGenerator) (c : Clock) :
  min_int <= now c < max_int ->
  exists ts seq,
    next_slot sg c = Some (ts, seq) /\
    (ts = now c \/
     now c = lastTimestamp sg /\ lastTimestamp sg < ts /\
     (In ts (polls c) \/ ts = lastTimestamp sg + 1)).
Proof.
  intros Hnow. unfold next_slot.
  destruct (Z.eqb_spec (now c) (lastTimestamp sg)) as [Heq | Hne].
  - destruct (Z.land (add (sequence sg) 1) 0xFFF =? 0).
    + destruct (wait_next_millis_returns (lastTimestamp sg) (polls c))
        with (ts := now c) as (t & -> & Hlt & Hfrom); [lia |].
      do 2 eexists. split; [reflexivity |].
      destruct Hfrom as [-> | Hfrom]; [lia | right; auto].
    + do 2 eexists. split; [reflexivity |]. auto.
  - do 2 eexists. split; [reflexivity |]. auto.
Qed.

Lemma mint_some (sg : SnowflakeGenerator) (c : Clock) :
  min_int <= now c < max_int ->
  exists id sg', GenerateSnowflakeID sg c = Some (id, sg').
Proof.
  intros Hnow. unfold GenerateSnowflakeID.
  destruct (next_slot_total sg c Hnow) as (ts & seq & -> & _). eauto.
Qed.

(** With the clock not behind the generator, a call returns an identifier
    above the generator's watermark and makes it the new watermark. *)
Lemma mint_advances (sg : SnowflakeGenerator) (c : Clock) (id : Z)
    (sg' : SnowflakeGenerator) :
  wf sg -> 0 <= lastTimestamp sg < 2 ^ 41 -> fits_field c ->
  lastTimestamp sg <= now c ->
  GenerateSnowflakeID sg c = Some (id, sg') ->
  watermark sg < id /\ id = watermark sg' /\
  wf sg' /\ 0 <= lastTimestamp sg' < 2 ^ 41.
Proof.
  intros Hwf Hlast Hfit Hahead Hstep.
  pose proof (mint_wf _ _ _ _ Hwf Hstep) as Hwf'.
  apply mint_inversion in Hstep as (Hslot & Hm & ->).
  pose proof Hfit as Hfit'. unfold fits_field in Hfit'.
  apply Forall_cons in Hfit' as [Hnow Hpolls].
  apply next_slot_cases in Hslot;
    [| exact Hwf | unfold min_int, max_int; lia].
  destruct Hwf as [Hseq Hmid], Hwf' as [Hseq' _].
  assert (Hts' : 0 <= lastTimestamp sg' < 2 ^ 41).
  { destruct Hslot as [_ -> _ | _ _ -> _ | Heq _ _ Hlt [Hin | ->]]; try lia.
    rewrite List.Forall_forall in Hpolls. apply Hpolls in Hin. lia. }
  unfold watermark. rewrite Hm.
  repeat split; try assumption; try lia.
  rewrite !compose_exact by (assumption || lia).
  destruct Hslot as [Hne Hts Hs | Heq Hroom Hts Hs | Heq Hfull Hs Hlt _]; nia.
Qed.

(** *** Runs of calls *)

Lemma mint_all_increasing (cs : list Clock) :
  forall sg,
    wf sg -> 0 <= lastTimestamp sg < 2 ^ 41 ->
    Forall fits_field cs -> clock_never_behind sg cs ->
    exists ids sg',
      mint_all sg cs = Some (ids, sg') /\
      length ids = length cs /\
      Forall (fun id => watermark sg < id) ids /\
      forall (i j : nat) (a b : Z),
        (i < j)%nat -> ids !! i = Some a -> ids !! j = Some b -> a < b.
Proof.
  induction cs as [| c rest IH]; intros sg Hwf Hlast Hfits Hahead.
  - exists [], sg. repeat split; auto. intros i j a b _ Hi. discriminate.
  - apply Forall_cons in Hfits as [Hfit Hfits].
    destruct Hahead as [Hle Hahead].
    assert (Hnow : min_int <= now c < max_int).
    { unfold fits_field in Hfit. apply Forall_cons in Hfit as [Hnow _].
      unfold min_int, max_int. lia. }
    destruct (mint_some sg c Hnow) as (id & sg1 & Hstep).
    rewrite Hstep in Hahead.
    destruct (mint_advances _ _ _ _ Hwf Hlast Hfit Hle Hstep)
      as (Hup & Hid & Hwf1 & Hlast1).
    destruct (IH sg1 Hwf1 Hlast1 Hfits Hahead)
      as (ids & sg2 & Hrun & Hlen & Habove & Hsorted).
    exists (id :: ids), sg2. simpl. rewrite Hstep, Hrun.
    rewrite <- Hid in Habove.
    repeat split.
    + f_equal. exact Hlen.
    + constructor; [exact Hup |].
      eapply Forall_impl; [exact Habove |]. simpl. intros; lia.
    + intros i j a b Hij Hi Hj.
      destruct j as [| j]; [lia |]. simpl in Hj.
      destruct i as [| i]; simpl in Hi.
      * inversion Hi; subst.
        rewrite Forall_forall in Habove. apply Habove.
        eapply list_elem_of_lookup_2; eauto.
      * apply (Hsorted i j); auto; lia.
Qed.

End SnowflakeFacts.

(** ** The specification of the snowflake generator, claim by claim *)

Module SnowflakeSpec.
Import Int64 Int64Facts Snowflake SnowflakeFacts.

(** C6.  [NewSnowflakeGenerator m] accepts every integer [m], negative ones
    and ones above 1023 included, and stores [m & 0x3FF] as the node
    discriminator: the low ten bits of [m], a value of [0..1023].  The
    discriminator 2047 is stored as 1023. *)
Theorem new_generator_masks_discriminator :
  (forall m : Z,
     machineID (NewSnowflakeGenerator m) = Z.land m 0x3FF /\
     machineID (NewSnowflakeGenerator m) = m mod 2 ^ 10 /\
     0 <= machineID (NewSnowflakeGenerator m) <= 1023 /\
     lastTimestamp (NewSnowflakeGenerator m) = 0 /\
     sequence (NewSnowflakeGenerator m) = 0) /\
  machineID (NewSnowflakeGenerator 2047) = 1023 /\
  machineID (NewSnowflakeGenerator (-1)) = 1023 /\
  machineID (NewSnowflakeGenerator 1024) = 0.
Proof.
  split; [| repeat split].
  intros m. simpl. pose proof (land_mask_10 m) as Hm.
  repeat split; try lia.
  change 0x3FF with (2 ^ 10 - 1). apply land_low_mask. lia.
Qed.

(** How the loop of lines 116-124 ends when entered with a timestamp that
    is not past [last]: on the first polled reading past [last], or, all
    readings polled before the timer fires being at most [last], on
    [last + 1]. *)
Lemma wait_next_millis_exit (last : Z) (ps : list Z) :
  min_int <= last < max_int ->
  forall ts, ts <= last ->
    exists t,
      wait_next_millis last ps ts = Some t /\
      last < t /\
      ((exists pre post,
          ps = pre ++ t :: post /\ Forall (fun r => r <= last) pre) \/
       (Forall (fun r => r <= last) ps /\ t = last + 1)).
Proof.
  intros Hlast. induction ps as [| p ps IH]; intros ts Hts; simpl.
  - destruct (Z.leb_spec ts last); [| lia].
    rewrite add_1_exact by lia.
    destruct (Z.leb_spec (last + 1) last); [lia |].
    exists (last + 1). split; [reflexivity |]. split; [lia |].
    right. split; [constructor | reflexivity].
  - destruct (Z.leb_spec ts last); [| lia].
    destruct (Z.le_gt_cases p last) as [Hp | Hp].
    + destruct (IH p Hp) as (t & Ht & Hlt & Hexit).
      exists t. split; [exact Ht |]. split; [exact Hlt |].
      destruct Hexit as [(pre & post & -> & Hpre) | [Hall ->]].
      * left. exists (p :: pre), post. split; [reflexivity |].
        constructor; assumption.
      * right. split; [constructor; assumption | reflexivity].
    + exists p. split.
      * destruct ps; simpl; destruct (Z.leb_spec p last); try lia; reflexivity.
      * split; [lia |]. left. exists [], ps. split; [reflexivity | constructor].
Qed.

(** C7, as the code has it.  A call of [GenerateSnowflakeID] returns, in
    every state of the generator and whatever the clock does during the
    call (stalled, moving backwards, jumping), as long as its first
    reading is an [int64] below the largest one.  In a millisecond other
    than [lastTimestamp] it settles on that reading with sequence 0; in
    the millisecond of [lastTimestamp] with sequence numbers left, on that
    reading with the next sequence number; and with the sequence
    exhausted the loop exits with sequence 0 and a timestamp above
    [lastTimestamp]: the first polled reading past it, or, when the timer
    fires before any such reading, [lastTimestamp + 1]. *)
Theorem mint_always_returns (sg : SnowflakeGenerator) (c : Clock) :
  min_int <= now c < max_int ->
  exists id sg',
    GenerateSnowflakeID sg c = Some (id, sg') /\
    machineID sg' = machineID sg /\
    id = compose (lastTimestamp sg') (machineID sg) (sequence sg') /\
    (now c <> lastTimestamp sg ->
     lastTimestamp sg' = now c /\ sequence sg' = 0) /\
    (now c = lastTimestamp sg ->
     Z.land (add (sequence sg) 1) 0xFFF <> 0 ->
     lastTimestamp sg' = now c /\
     sequence sg' = Z.land (add (sequence sg) 1) 0xFFF) /\
    (now c = lastTimestamp sg ->
     Z.land (add (sequence sg) 1) 0xFFF = 0 ->
     sequence sg' = 0 /\
     lastTimestamp sg < lastTimestamp sg' /\
     ((exists pre post,
         polls c = pre ++ lastTimestamp sg' :: post /\
         Forall (fun r => r <= lastTimestamp sg) pre) \/
      (Forall (fun r => r <= lastTimestamp sg) (polls c) /\
       lastTimestamp sg' = lastTimestamp sg + 1))).
Proof.
  intros Hnow. unfold GenerateSnowflakeID, next_slot.
  destruct (Z.eqb_spec (now c) (lastTimestamp sg)) as [Heq | Hne].
  - destruct (Z.eqb_spec (Z.land (add (sequence sg) 1) 0xFFF) 0)
      as [Hfull | Hroom].
    + destruct (wait_next_millis_exit (lastTimestamp sg) (polls c))
        with (ts := now c) as (t & -> & Hlt & Hexit); [lia | lia |].
      do 2 eexists. split; [reflexivity |]. simpl.
      repeat split; try congruence; try lia; exact Hexit.
    + do 2 eexists. split; [reflexivity |]. simpl.
      repeat split; try congruence; try lia.
  - do 2 eexists. split; [reflexivity |]. simpl.
    repeat split; try congruence; try lia.
Qed.

(** An instance: sequence exhausted at millisecond 5, the clock stalled
    there for two polls before the timer fires. *)
Lemma mint_always_returns_witness :
  min_int <= now (stalled 5 2) < max_int /\
  GenerateSnowflakeID (mkGen 5 4095 1) (stalled 5 2)
    = Some (compose 6 1 0, mkGen 6 0 1) /\
  exists id sg',
    GenerateSnowflakeID (mkGen 5 4095 1) (stalled 5 2) = Some (id, sg') /\
    machineID sg' = machineID (mkGen 5 4095 1) /\
    id = compose (lastTimestamp sg') (machineID (mkGen 5 4095 1)) (sequence sg') /\
    (now (stalled 5 2) <> lastTimestamp (mkGen 5 4095 1) ->
     lastTimestamp sg' = now (stalled 5 2) /\ sequence sg' = 0) /\
    (now (stalled 5 2) = lastTimestamp (mkGen 5 4095 1) ->
     Z.land (add (sequence (mkGen 5 4095 1)) 1) 0xFFF <> 0 ->
     lastTimestamp sg' = now (stalled 5 2) /\
     sequence sg' = Z.land (add (sequence (mkGen 5 4095 1)) 1) 0xFFF) /\
    (now (stalled 5 2) = lastTimestamp (mkGen 5 4095 1) ->
     Z.land (add (sequence (mkGen 5 4095 1)) 1) 0xFFF = 0 ->
     sequence sg' = 0 /\
     lastTimestamp (mkGen 5 4095 1) < lastTimestamp sg' /\
     ((exists pre post,
         polls (stalled 5 2) = pre ++ lastTimestamp sg' :: post /\
         Forall (fun r => r <= lastTimestamp (mkGen 5 4095 1)) pre) \/
      (Forall (fun r => r <= lastTimestamp (mkGen 5 4095 1)) (polls (stalled 5 2)) /\
       lastTimestamp sg' = lastTimestamp (mkGen 5 4095 1) + 1))).
Proof.
  assert (H : min_int <= now (stalled 5 2) < max_int)
    by (unfold min_int, max_int; simpl; lia).
  split; [exact H |]. split; [reflexivity |].
  exact (mint_always_returns (mkGen 5 4095 1) (stalled 5 2) H).
Defined.

(** C7, as stated, fails at the largest [int64]: after 4096 calls in the
    millisecond 9223372036854775807 the sequence is exhausted, the forced
    [lastTimestamp + 1] wraps to the smallest [int64], and the next call,
    the clock still at that millisecond, never leaves the loop. *)
Lemma mint_hangs_at_largest_timestamp :
  option_map snd
    (mint_all (NewSnowflakeGenerator 1)
              (repeat (stalled 9223372036854775807 3) 4096))
  = Some (mkGen 9223372036854775807 4095 1) /\
  GenerateSnowflakeID (mkGen 9223372036854775807 4095 1)
                      (stalled 9223372036854775807 3)
  = None.
Proof.
  split; vm_compute; reflexivity.
Qed.

(** The one state in which the call does not return: sequence exhausted at
    the largest [int64] timestamp. *)
Lemma mint_diverges_at_max_int (m : Z) (ps : list Z) (r : Z) :
  Forall in_range ps ->
  GenerateSnowflakeID (mkGen max_int 4095 m) (mkClock max_int ps r) = None.
Proof.
  intros Hps. unfold GenerateSnowflakeID, next_slot. simpl.
  rewrite wait_next_millis_stuck; auto.
  unfold in_range, min_int, max_int. lia.
Qed.

(** C2, as the code has it.  On one generator, over calls whose clock
    readings fit the 41-bit timestamp field and none of which starts with a
    reading below the timestamp of the identifier returned before it, every
    call returns, and an identifier returned earlier is strictly smaller
    than one returned later. *)
Theorem ids_increase_while_clock_not_behind (d : Z) (cs : list Clock) :
  Forall fits_field cs ->
  clock_never_behind (NewSnowflakeGenerator d) cs ->
  exists ids sg',
    mint_all (NewSnowflakeGenerator d) cs = Some (ids, sg') /\
    length ids = length cs /\
    forall (i j : nat) (a b : Z),
      (i < j)%nat -> ids !! i = Some a -> ids !! j = Some b -> a < b.
Proof.
  intros Hfits Hahead.
  destruct (mint_all_increasing cs (NewSnowflakeGenerator d))
    as (ids & sg' & Hrun & Hlen & _ & Hsorted); auto using new_wf.
  - simpl. lia.
  - exists ids, sg'. auto.
Qed.

(** An instance: four calls in milliseconds 5, 5, 5 and 9. *)
Lemma ids_increase_while_clock_not_behind_witness :
  Forall fits_field [tick 5; tick 5; stalled 5 1; tick 9] /\
  clock_never_behind (NewSnowflakeGenerator 7)
    [tick 5; tick 5; stalled 5 1; tick 9] /\
  exists ids sg',
    mint_all (NewSnowflakeGenerator 7) [tick 5; tick 5; stalled 5 1; tick 9]
      = Some (ids, sg') /\
    length ids = length [tick 5; tick 5; stalled 5 1; tick 9] /\
    forall (i j : nat) (a b : Z),
      (i < j)%nat -> ids !! i = Some a -> ids !! j = Some b -> a < b.
Proof.
  assert (Hfits : Forall fits_field [tick 5; tick 5; stalled 5 1; tick 9]).
  { unfold fits_field. repeat (constructor; simpl; try lia). }
  assert (Hahead : clock_never_behind (NewSnowflakeGenerator 7)
                     [tick 5; tick 5; stalled 5 1; tick 9]).
  { simpl. lia. }
  split; [exact Hfits |]. split; [exact Hahead |].
  exact (ids_increase_while_clock_not_behind 7 _ Hfits Hahead).
Defined.

(** C2, as stated, fails when the clock moves backwards: reading 5 and
    then 3, the generator returns 20975616 and then the smaller 12587008. *)
Lemma backward_clock_breaks_order :
  mint_all (NewSnowflakeGenerator 1) [tick 5; tick 3]
    = Some ([20975616; 12587008],
            {| lastTimestamp := 3; sequence := 0; machineID := 1 |}) /\
  12587008 < 20975616.
Proof.
  split; reflexivity.
Qed.

(** C3 at a concrete run: 4098 calls on a fresh generator with discriminator
    1 while the clock shows millisecond 1 throughout.  The 4097th call
    forces the timestamp to 2; the 4098th reads 1 again, which differs from
    [lastTimestamp = 2], resets the sequence and returns 4198400, the very
    identifier the first call returned, with timestamp field 1. *)
Theorem stalled_clock_repeats_identifier :
  option_map
    (fun r => (fst r !! 0%nat, fst r !! 4096%nat, fst r !! 4097%nat, snd r))
    (mint_all (NewSnowflakeGenerator 1) (repeat (stalled 1 3) 4098))
  = Some (Some 4198400, Some 8392704, Some 4198400,
          {| lastTimestamp := 1; sequence := 0; machineID := 1 |}) /\
  timestamp_of 4198400 = 1 /\
  timestamp_of 8392704 = 2.
Proof.
  split; [vm_compute; reflexivity | split; reflexivity].
Qed.

(** The same defect in general: once the timeout has forced the timestamp
    to [t + 1], a call that still reads [t] goes back to timestamp [t]
    with sequence 0. *)
Lemma forced_advance_is_undone (t m : Z) (n n' : nat) :
  min_int <= t < max_int ->
  exists id1 id2,
    GenerateSnowflakeID (mkGen t 4095 m) (stalled t n)
      = Some (id1, mkGen (t + 1) 0 m) /\
    GenerateSnowflakeID (mkGen (t + 1) 0 m) (stalled t n')
      = Some (id2, mkGen t 0 m) /\
    id2 = compose t m 0.
Proof.
  intros Ht. do 2 eexists. split; [| split; [| reflexivity]].
  - unfold GenerateSnowflakeID, next_slot. simpl.
    rewrite Z.eqb_refl. simpl.
    assert (Hwait : wait_next_millis t (repeat t n) t = Some (t + 1)).
    { induction n as [| n IH]; simpl.
      - rewrite Z.leb_refl, add_1_exact by lia.
        destruct (Z.leb_spec (t + 1) t); [lia | reflexivity].
      - rewrite Z.leb_refl. exact IH. }
    rewrite Hwait. reflexivity.
  - unfold GenerateSnowflakeID, next_slot. simpl.
    destruct (Z.eqb_spec t (t + 1)); [lia | reflexivity].
Qed.

(** C4, as the code has it.  Let [id] be returned by a call on a generator
    built with discriminator [d].  Then [id] is
    [(timestamp << 22) | ((d & 0x3FF) << 12) | sequence] for the timestamp
    and sequence the call settled on; [(id >> 12) & 0x3FF] is [d & 0x3FF];
    [id & 0xFFF] is the sequence, within [0..4095]; and, when the clock
    readings of the call fit the 41-bit field, [id >> 22] is the timestamp,
    which is at least the clock value at the start of the call and, unless
    the timeout forced it to that value plus one, at most the clock value
    at return (no reading of the call being later than that one). *)
Theorem identifier_layout (d : Z) (sg : SnowflakeGenerator) (c : Clock)
    (id : Z) (sg' : SnowflakeGenerator) :
  reachable d sg ->
  GenerateSnowflakeID sg c = Some (id, sg') ->
  id = Z.lor (Z.lor (shl (lastTimestamp sg') 22) (shl (Z.land d 0x3FF) 12))
             (sequence sg') /\
  machine_of id = Z.land d 0x3FF /\
  sequence_of id = sequence sg' /\
  0 <= sequence_of id <= 4095 /\
  (fits_field c ->
   timestamp_of id = lastTimestamp sg' /\
   now c <= timestamp_of id /\
   (no_later_than_return c ->
    timestamp_of id <= at_return c \/ timestamp_of id = now c + 1)).
Proof.
  intros Hreach Hstep.
  destruct (reachable_wf d sg Hreach) as [Hwf Hmid].
  pose proof (mint_wf _ _ _ _ Hwf Hstep) as [Hseq' _].
  pose proof (land_mask_10 d) as Hd.
  apply mint_inversion in Hstep as (Hslot & _ & ->).
  rewrite Hmid.
  split; [reflexivity |].
  split; [apply compose_machine; assumption |].
  split; [apply compose_sequence; assumption |].
  split; [rewrite compose_sequence by assumption; lia |].
  intros Hfit. unfold fits_field in Hfit.
  apply Forall_cons in Hfit as [Hnow Hpolls].
  apply next_slot_cases in Hslot;
    [| exact Hwf | unfold min_int, max_int; lia].
  assert (Hts : 0 <= lastTimestamp sg' < 2 ^ 41).
  { destruct Hslot as [_ -> _ | _ _ -> _ | Heq _ _ Hlt [Hin | ->]]; try lia.
    rewrite List.Forall_forall in Hpolls. apply Hpolls in Hin. lia. }
  rewrite compose_timestamp by (assumption || lia).
  split; [reflexivity |].
  split.
  - destruct Hslot as [_ -> _ | _ _ -> _ | Heq _ _ Hlt _]; lia.
  - intros Hret. unfold no_later_than_return in Hret.
    apply Forall_cons in Hret as [Hnow_ret Hpolls_ret].
    destruct Hslot as [_ -> _ | _ _ -> _ | Heq _ _ Hlt [Hin | ->]].
    + left. exact Hnow_ret.
    + left. exact Hnow_ret.
    + left. rewrite List.Forall_forall in Hpolls_ret. auto.
    + right. lia.
Qed.

(** An instance: the first call on a generator built with 2047, the clock
    showing 5 at the start of the call and 6 at its return. *)
Lemma identifier_layout_witness :
  reachable 2047 (NewSnowflakeGenerator 2047) /\
  GenerateSnowflakeID (NewSnowflakeGenerator 2047) (mkClock 5 [] 6)
    = Some (25161728, mkGen 5 0 1023) /\
  fits_field (mkClock 5 [] 6) /\
  no_later_than_return (mkClock 5 [] 6) /\
  25161728 = Z.lor (Z.lor (shl 5 22) (shl (Z.land 2047 0x3FF) 12)) 0 /\
  machine_of 25161728 = Z.land 2047 0x3FF /\
  sequence_of 25161728 = 0 /\
  0 <= sequence_of 25161728 <= 4095 /\
  (fits_field (mkClock 5 [] 6) ->
   timestamp_of 25161728 = 5 /\
   5 <= timestamp_of 25161728 /\
   (no_later_than_return (mkClock 5 [] 6) ->
    timestamp_of 25161728 <= 6 \/ timestamp_of 25161728 = 5 + 1)).
Proof.
  assert (Hreach : reachable 2047 (NewSnowflakeGenerator 2047))
    by constructor.
  assert (Hstep : GenerateSnowflakeID (NewSnowflakeGenerator 2047)
                    (mkClock 5 [] 6) = Some (25161728, mkGen 5 0 1023))
    by reflexivity.
  split; [exact Hreach |]. split; [exact Hstep |].
  split; [unfold fits_field; repeat (constructor; simpl; try lia) |].
  split; [unfold no_later_than_return; repeat (constructor; simpl; try lia) |].
  exact (identifier_layout 2047 _ _ _ _ Hreach Hstep).
Defined.

(** C4, as stated, fails at the upper bound on the timestamp: after 4096
    calls in millisecond 1 the next call, the clock still at 1 when it
    returns, yields an identifier whose timestamp field is 2. *)
Lemma forced_timestamp_exceeds_clock :
  option_map snd
    (mint_all (NewSnowflakeGenerator 1) (repeat (stalled 1 3) 4096))
  = Some (mkGen 1 4095 1) /\
  GenerateSnowflakeID (mkGen 1 4095 1) (stalled 1 3)
  = Some (8392704, mkGen 2 0 1) /\
  timestamp_of 8392704 = 2 /\
  at_return (stalled 1 3) = 1 /\
  at_return (stalled 1 3) < timestamp_of 8392704.
Proof.
  split; [vm_compute; reflexivity | repeat split].
Qed.

End SnowflakeSpec.

(** ** The specification of the node identity resolver *)

Module MachineIDSpec.
Import MachineID.

Lemma first_ipv4_octet_none (addrs : list Addr) :
  forallb (fun a => negb (qualifies a)) addrs = true ->
  first_ipv4_octet addrs = (0, None).
Proof.
  induction addrs as [| [ip mask | ip zone] rest IH]; simpl; intros H.
  - reflexivity.
  - apply andb_prop in H as [Hq Hrest].
    destruct (IsLoopback ip); simpl in *; [auto |].
    destruct (To4 ip) as [ip4 |]; [| auto].
    rewrite bool_decide_eq_true_2 in Hq by eauto. discriminate.
  - auto.
Qed.

(** [To4] and [IsLoopback] on the usual shapes of address: 10.0.0.5,
    its IPv4-mapped form ::ffff:10.0.0.5, the mapped loopback
    ::ffff:127.0.0.1, and fe80::1, which has no 4-byte form. *)
Example To4_shapes :
  To4 [x0a; x00; x00; x05] = Some [x0a; x00; x00; x05] /\
  To4 (v4InV6Prefix ++ [x0a; x00; x00; x05]) = Some [x0a; x00; x00; x05] /\
  IsLoopback (v4InV6Prefix ++ [x7f; x00; x00; x01]) = true /\
  To4 ([xfe; x80] ++ repeat x00 13 ++ [x01]) = None /\
  IsLoopback ([xfe; x80] ++ repeat x00 13 ++ [x01]) = false /\
  first_ipv4_octet
    [IPAddr [x0a; x00; x00; x09] EmptyString;
     IPNet ([xfe; x80] ++ repeat x00 13 ++ [x01]) (repeat xff 16);
     IPNet (v4InV6Prefix ++ [x0a; x00; x00; x05]) (repeat xff 16)]
  = (5, None).
Proof. repeat split. Qed.

(** The part of C1 the code keeps: when the enumeration of interface
    addresses fails, the resolver returns the process id modulo 1024. *)
Lemma getMachineID_enumeration_fails (h : Host) (addrs : list Addr) (err : error) :
  InterfaceAddrs h = (addrs, Some err) ->
  getMachineID h = Z.rem (Getpid h) 1024.
Proof.
  intros H. unfold getMachineID, getLastIPOctet. rewrite H. reflexivity.
Qed.

(** The part of C1 the code misses: when the enumeration succeeds and no
    address qualifies, the resolver returns 0, whatever the process id. *)
Lemma getMachineID_no_address (h : Host) (addrs : list Addr) :
  InterfaceAddrs h = (addrs, None) ->
  forallb (fun a => negb (qualifies a)) addrs = true ->
  getMachineID h = 0.
Proof.
  intros H Hnone. unfold getMachineID, getLastIPOctet. rewrite H.
  rewrite first_ipv4_octet_none by exact Hnone. reflexivity.
Qed.

(** C1 at concrete hosts with process id 4242, for which the claim
    prescribes [4242 mod 1024 = 146]: with only the loopback addresses
    127.0.0.1/8 and ::1/128 enumerated, and with no address enumerated at
    all, [getMachineID] returns 0.  With the enumeration failing it
    returns 146, and with 192.168.1.23/24 present it returns 23. *)
Theorem getMachineID_without_address_returns_zero :
  let lo4 := IPNet [x7f; x00; x00; x01] [xff; x00; x00; x00] in
  let lo6 := IPNet IPv6loopback (repeat xff 16) in
  let lan := IPNet [xc0; xa8; x01; x17] [xff; xff; xff; x00] in
  qualifies lo4 = false /\ qualifies lo6 = false /\
  getMachineID (mkHost ([lo4; lo6], None) 4242) = 0 /\
  getMachineID (mkHost ([], None) 4242) = 0 /\
  Z.rem 4242 1024 = 146 /\
  getMachineID (mkHost ([], Some "route ip+net: netlinkrib: permission denied"%string) 4242) = 146 /\
  getMachineID (mkHost ([lo4; lo6; lan], None) 4242) = 23.
Proof.
  repeat split.
Qed.

End MachineIDSpec.

(** ** The specification of the random hex strings *)

Module RandomHexSpec.
Import RandomHex.

Lemma hextable_at_nibble (v : byte) :
  is_lower_hex (hextable_at (N.shiftr (Byte.to_N v) 4)) = true /\
  is_lower_hex (hextable_at (N.land (Byte.to_N v) 0x0f)) = true.
Proof.
  destruct v; split; reflexivity.
Qed.

Lemma Encode_length (src : list byte) :
  String.length (Encode src) = (2 * length src)%nat.
Proof.
  induction src as [| v rest IH]; simpl; [reflexivity |].
  rewrite IH. lia.
Qed.

Lemma Encode_lower_hex (src : list byte) :
  all_chars is_lower_hex (Encode src) = true.
Proof.
  induction src as [| v rest IH]; simpl; [reflexivity |].
  destruct (hextable_at_nibble v) as [-> ->]. exact IH.
Qed.

Lemma mallocgc_zero (rt : Runtime) : mallocgc rt 0 = Returns tt.
Proof. reflexivity. Qed.

Lemma mallocgc_room (rt : Runtime) (size : Z) :
  has_memory rt size = true -> mallocgc rt size = Returns tt.
Proof.
  intros H. unfold mallocgc. rewrite H. destruct (size =? 0); reflexivity.
Qed.

(** [make] returns for a length within the limit that the heap provides. *)
Lemma make_bytes_returns (rt : Runtime) (n : Z) :
  0 <= n <= Z.of_N (maxAlloc rt) ->
  n = 0 \/ has_memory rt n = true ->
  make_bytes rt n = Returns (repeat x00 (Z.to_nat n)).
Proof.
  intros Hn Hmem. unfold make_bytes.
  destruct (Z.ltb_spec n 0); [lia |].
  destruct (Z.ltb_spec (Z.of_N (maxAlloc rt)) n); [lia |]. simpl.
  destruct Hmem as [-> | Hmem];
    [rewrite mallocgc_zero | rewrite mallocgc_room by exact Hmem];
    reflexivity.
Qed.

(** [make] returns only a zeroed slice of the length asked for, which is
    then within the limit. *)
Lemma make_bytes_inversion (rt : Runtime) (n : Z) (bytes : list byte) :
  make_bytes rt n = Returns bytes ->
  0 <= n <= Z.of_N (maxAlloc rt) /\ bytes = repeat x00 (Z.to_nat n).
Proof.
  unfold make_bytes.
  destruct (Z.ltb_spec n 0) as [| Hlo]; [discriminate |].
  destruct (Z.ltb_spec (Z.of_N (maxAlloc rt)) n) as [| Hhi]; [discriminate |].
  simpl. destruct (mallocgc rt n); simpl; intros Heq; inversion Heq.
  split; [lia | reflexivity].
Qed.

Lemma EncodedLen_exact (n : Z) :
  0 <= n -> 2 * n <= Int64.max_int -> EncodedLen n = 2 * n.
Proof.
  intros Hn Hmax. unfold EncodedLen.
  replace (n * 2) with (2 * n) by lia.
  apply Int64Facts.wrap_id.
  unfold Int64.in_range, Int64.min_int, Int64.max_int in *. lia.
Qed.

Lemma EncodeToString_returns (rt : Runtime) (src : list byte) :
  2 * Z.of_nat (length src) <= Z.of_N (maxAlloc rt) ->
  2 * Z.of_nat (length src) <= Int64.max_int ->
  src = [] \/ has_memory rt (2 * Z.of_nat (length src)) = true ->
  EncodeToString rt src = Returns (Encode src).
Proof.
  intros Hlimit Hint Hmem. unfold EncodeToString.
  rewrite EncodedLen_exact by lia.
  assert (Hmem' : 2 * Z.of_nat (length src) = 0 \/
                  has_memory rt (2 * Z.of_nat (length src)) = true).
  { destruct Hmem as [-> | Hmem]; [left; reflexivity | right; exact Hmem]. }
  rewrite make_bytes_returns by (auto; lia). simpl.
  destruct Hmem' as [-> | Hm];
    [rewrite mallocgc_zero | rewrite mallocgc_room by exact Hm];
    reflexivity.
Qed.

Lemma EncodeToString_nil (rt : Runtime) :
  EncodeToString rt [] = Returns EmptyString.
Proof.
  apply (EncodeToString_returns rt []); simpl; auto; try lia.
  unfold Int64.max_int. lia.
Qed.

(** Whatever [EncodeToString] returns is the text [Encode] writes. *)
Lemma EncodeToString_inversion (rt : Runtime) (src : list byte) (s : string) :
  EncodeToString rt src = Returns s -> s = Encode src.
Proof.
  unfold EncodeToString.
  destruct (make_bytes rt _); simpl; [| discriminate | discriminate].
  destruct (mallocgc rt _); simpl; intros H; inversion H. reflexivity.
Qed.

Lemma rand_Read_supplies (src : nat -> byte) (k : nat) :
  exists m, rand_Read (Supplies src) (repeat x00 k)
            = Returns (map src (seq 0 k), (m, None)).
Proof.
  destruct k as [| k]; [exists 0; reflexivity |].
  exists (Z.of_nat (S k)). simpl repeat. unfold rand_Read.
  change (length (x00 :: repeat x00 k)) with (S (length (repeat x00 k))).
  rewrite repeat_length. reflexivity.
Qed.

(** C8, as the code has it.  Let the length [n >= 0] be such that the
    runtime allocates the [n] bytes of the slice and the [2 * n] bytes of
    the result: [2 * n] is an [int], does not exceed [maxAlloc], and the
    heap provides both sizes.  When [rand.Read] fills the slice,
    [GenerateRandomHexString n] returns the hex encoding of the [n] bytes
    read, a string of exactly [2 * n] lowercase hexadecimal digits; when
    [rand.Read] returns an error it returns the empty string; and when a
    read of [n >= 1] bytes ends the process, as a failing read does from
    go1.24 on, the call does not return. *)
Theorem random_hex_string_contract (rt : Runtime) (n : Z) :
  0 <= n ->
  2 * n <= Z.of_N (maxAlloc rt) ->
  2 * n <= Int64.max_int ->
  has_memory rt n = true ->
  has_memory rt (2 * n) = true ->
  (forall src : nat -> byte,
     let bytes := map src (seq 0 (Z.to_nat n)) in
     Z.of_nat (length bytes) = n /\
     GenerateRandomHexString rt n (Supplies src) = Returns (Encode bytes) /\
     Z.of_nat (String.length (Encode bytes)) = 2 * n /\
     all_chars is_lower_hex (Encode bytes) = true) /\
  (forall err : string,
     GenerateRandomHexString rt n (Fails err) = Returns EmptyString) /\
  (forall msg : string,
     0 < n -> GenerateRandomHexString rt n (Crashes msg) = Aborts msg).
Proof.
  intros Hn Hlimit Hint Hmem Hmem2.
  assert (Hmake : make_bytes rt n = Returns (repeat x00 (Z.to_nat n)))
    by (apply make_bytes_returns; [lia | auto]).
  split; [| split].
  - intros src bytes.
    assert (Hlen : length bytes = Z.to_nat n).
    { unfold bytes. rewrite length_map, length_seq. reflexivity. }
    split; [rewrite Hlen; lia |].
    split; [| split; [| apply Encode_lower_hex]].
    + unfold GenerateRandomHexString. rewrite Hmake. simpl bind.
      destruct (rand_Read_supplies src (Z.to_nat n)) as [m ->]. simpl bind.
      fold bytes. apply EncodeToString_returns; rewrite Hlen.
      * lia.
      * lia.
      * right. replace (2 * Z.of_nat (Z.to_nat n)) with (2 * n) by lia.
        exact Hmem2.
    + rewrite Encode_length, Hlen. lia.
  - intros err. unfold GenerateRandomHexString. rewrite Hmake. simpl.
    destruct (Z.to_nat n); [apply EncodeToString_nil | reflexivity].
  - intros msg Hpos. unfold GenerateRandomHexString. rewrite Hmake. simpl.
    destruct (Z.to_nat n) eqn:Hk; [lia | reflexivity].
Qed.

(** An instance: the length 16 on a 64-bit Linux process. *)
Lemma random_hex_string_contract_witness :
  0 <= 16 /\
  2 * 16 <= Z.of_N (maxAlloc linux_amd64) /\
  2 * 16 <= Int64.max_int /\
  has_memory linux_amd64 16 = true /\
  has_memory linux_amd64 (2 * 16) = true /\
  (forall src : nat -> byte,
     let bytes := map src (seq 0 (Z.to_nat 16)) in
     Z.of_nat (length bytes) = 16 /\
     GenerateRandomHexString linux_amd64 16 (Supplies src)
     = Returns (Encode bytes) /\
     Z.of_nat (String.length (Encode bytes)) = 2 * 16 /\
     all_chars is_lower_hex (Encode bytes) = true) /\
  (forall err : string,
     GenerateRandomHexString linux_amd64 16 (Fails err) = Returns EmptyString) /\
  (forall msg : string,
     0 < 16 ->
     GenerateRandomHexString linux_amd64 16 (Crashes msg) = Aborts msg).
Proof.
  assert (H1 : 0 <= 16) by lia.
  assert (H2 : 2 * 16 <= Z.of_N (maxAlloc linux_amd64)) by (simpl; lia).
  assert (H3 : 2 * 16 <= Int64.max_int) by (unfold Int64.max_int; lia).
  assert (H4 : has_memory linux_amd64 16 = true) by reflexivity.
  assert (H5 : has_memory linux_amd64 (2 * 16) = true) by reflexivity.
  repeat (split; [assumption |]).
  exact (random_hex_string_contract linux_amd64 16 H1 H2 H3 H4 H5).
Defined.

(** C8, as stated, fails for a length the runtime does not allocate: on a
    64-bit Linux process, with the entropy source in order, the call for
    [1 << 62] bytes does not return a string of [1 << 63] characters but
    panics in [make]. *)
Lemma oversize_length_panics :
  0 <= 2 ^ 62 /\
  GenerateRandomHexString linux_amd64 (2 ^ 62) (Supplies (fun _ => x00))
  = Panics "panic: runtime error: makeslice: len out of range".
Proof.
  split; [lia | reflexivity].
Qed.

(** Sixteen bytes, 0xf0 up to 0xff, come out as 32 digits. *)
Example random_hex_string_16 :
  GenerateRandomHexString linux_amd64 16
    (Supplies (fun i => default x00 (Byte.of_nat (240 + i))))
  = Returns "f0f1f2f3f4f5f6f7f8f9fafbfcfdfeff"%string.
Proof. reflexivity. Qed.

(** Whatever a call with a failing read returns is the empty string. *)
Lemma failed_read_returns_empty (rt : Runtime) (n : Z) (err s : string) :
  GenerateRandomHexString rt n (Fails err) = Returns s -> s = EmptyString.
Proof.
  unfold GenerateRandomHexString.
  destruct (make_bytes rt n) as [bytes | |] eqn:Hmake; simpl;
    [| discriminate | discriminate].
  destruct bytes as [| b bytes]; simpl.
  - intros H. apply EncodeToString_inversion in H. exact H.
  - intros H. inversion H. reflexivity.
Qed.

(** C9.  A request for zero bytes returns the empty string, whatever the
    state of the allocator and of the entropy source: no byte is
    allocated and none is read.  The empty string is also what a call of
    any length that can be allocated returns when its read fails with an
    error, and the only thing such a call ever returns: the successful
    request for zero bytes cannot be told apart from a failure. *)
Theorem zero_length_looks_like_failure :
  forall (rt : Runtime) (e : Entropy) (err : string),
    GenerateRandomHexString rt 0 e = Returns EmptyString /\
    (forall n : Z,
       0 <= n <= Z.of_N (maxAlloc rt) -> n <= Int64.max_int ->
       has_memory rt n = true ->
       GenerateRandomHexString rt n (Fails err)
       = GenerateRandomHexString rt 0 e) /\
    (forall (n : Z) (s : string),
       GenerateRandomHexString rt n (Fails err) = Returns s ->
       Returns s = GenerateRandomHexString rt 0 e).
Proof.
  intros rt e err.
  assert (Hzero : GenerateRandomHexString rt 0 e = Returns EmptyString).
  { unfold GenerateRandomHexString.
    rewrite make_bytes_returns by (auto; lia). simpl.
    apply EncodeToString_nil. }
  rewrite Hzero. split; [reflexivity |]. split.
  - intros n Hn _ Hmem. unfold GenerateRandomHexString.
    rewrite make_bytes_returns by auto. simpl.
    destruct (Z.to_nat n); [apply EncodeToString_nil | reflexivity].
  - intros n s H. apply failed_read_returns_empty in H. congruence.
Qed.

(** C10.  For a negative length the call does not return a string: the
    allocation of the byte slice panics, whatever the entropy source
    would have done. *)
Theorem negative_length_panics (rt : Runtime) (n : Z) (e : Entropy) :
  n < 0 ->
  GenerateRandomHexString rt n e
  = Panics "panic: runtime error: makeslice: len out of range" /\
  forall s : string, GenerateRandomHexString rt n e <> Returns s.
Proof.
  intros Hn. unfold GenerateRandomHexString, make_bytes.
  destruct (Z.ltb_spec n 0); [| lia].
  split; [reflexivity | discriminate].
Qed.

(** An instance: the length -1. *)
Lemma negative_length_panics_witness :
  -1 < 0 /\
  GenerateRandomHexString linux_amd64 (-1) (Fails "EOF")
  = Panics "panic: runtime error: makeslice: len out of range" /\
  forall s : string,
    GenerateRandomHexString linux_amd64 (-1) (Fails "EOF") <> Returns s.
Proof.
  assert (H : -1 < 0) by lia.
  split; [exact H |].
  exact (negative_length_panics linux_amd64 (-1) (Fails "EOF") H).
Defined.

End RandomHexSpec.

(** ** The specification of the generator registry *)

Module RegistrySpec.
Import Snowflake MachineID Registry SnowflakeFacts.

Section Invariant.
Variable h : Host.

Lemma inv_start (n : nat) : inv h (start n).
Proof.
  split; simpl.
  - intros tid l Hl. apply lookup_replicate in Hl as [-> _]. exact I.
  - discriminate.
  - intros _. left. split; reflexivity.
Qed.

(** [pc_ok] reads the shared state only. *)
Lemma pc_ok_goto (p : Process) (tid : nat) (l : pc) (j : nat) (lj : pc) :
  pc_ok h (goto tid l p) j lj <-> pc_ok h p j lj.
Proof. destruct lj; reflexivity. Qed.

Lemma constructed_store (p : Process) (inst inst' : Instance) :
  heap p !! 0%nat = Some inst ->
  machineID (gen inst') = machineID (gen inst) ->
  constructed h p -> constructed h (store 0 inst' p).
Proof.
  intros Hinst Hm (Hlen & Hvar & inst0 & Hinst0 & Hmid).
  assert (inst0 = inst) as -> by congruence.
  split; [| split].
  - simpl. rewrite length_insert. exact Hlen.
  - exact Hvar.
  - exists inst'. split; [| congruence].
    simpl. apply list_lookup_insert_eq. lia.
Qed.

(** Only the holder of [once_m] stands inside [doSlow]. *)
Lemma other_not_holder (p : Process) (tid j : nat) (lj : pc) :
  once_m p = Some tid -> j <> tid -> pc_ok h p j lj ->
  match lj with
  | AtRecheck | AtGetMachineID | AtNew _ | AtStore | AtUnlock => False
  | _ => True
  end.
Proof.
  intros Hm Hne Hok. destruct lj; simpl in *; auto;
    destruct_and?; congruence.
Qed.

(** How the invariant is carried over an action of call [tid] that takes it
    from [l] to [l'] and the shared state from that of [p] to that of [q]. *)
Lemma inv_goto (p q : Process) (tid : nat) (l l' : pc) :
  inv h p ->
  callers p !! tid = Some l ->
  callers q = callers p ->
  pc_ok h q tid l' ->
  (forall j lj, j <> tid -> callers p !! j = Some lj ->
                pc_ok h p j lj -> pc_ok h q j lj) ->
  (once_done q = true -> constructed h q) ->
  (once_done q = false ->
   unconstructed q \/ l' = AtStore \/
   exists j, j <> tid /\ callers p !! j = Some AtStore) ->
  inv h (goto tid l' q).
Proof.
  intros Hinv Hl Hcallers Hself Hothers Hdone Hfresh.
  assert (Htid : (tid < length (callers p))%nat)
    by (eapply lookup_lt_Some; eauto).
  split.
  - intros j lj Hj. apply pc_ok_goto. simpl in Hj. rewrite Hcallers in Hj.
    apply list_lookup_insert_Some in Hj as [(<- & <- & _) | (Hne & Hj)].
    + exact Hself.
    + apply Hothers; auto. eapply inv_pcs; eauto.
  - exact Hdone.
  - intros Hnot. destruct (Hfresh Hnot) as [Hun | [-> | (j & Hne & Hj)]].
    + left. exact Hun.
    + right. exists tid. simpl. rewrite Hcallers.
      apply list_lookup_insert_eq. exact Htid.
    + right. exists j. simpl. rewrite Hcallers.
      rewrite list_lookup_insert_ne by auto. exact Hj.
Qed.

(** The same when the shared state is untouched. *)
Lemma inv_goto_same (p : Process) (tid : nat) (l l' : pc) :
  inv h p ->
  callers p !! tid = Some l ->
  l <> AtStore ->
  pc_ok h p tid l' ->
  inv h (goto tid l' p).
Proof.
  intros Hinv Hl Hne Hself.
  apply (inv_goto p p tid l l'); auto.
  - apply Hinv.
  - intros Hnot. destruct (inv_fresh h p Hinv Hnot) as [Hun | (j & Hj)]; auto.
    right. right. exists j. split; [| exact Hj].
    intros ->. congruence.
Qed.

Lemma constructed_lookup (p : Process) :
  constructed h p ->
  snowflakeGenerator p = Some 0%nat /\
  exists inst, heap p !! 0%nat = Some inst.
Proof. intros (_ & Hvar & inst & Hinst & _). eauto. Qed.

(** The state of another call is not disturbed: either its [pc_ok] does
    not mention what changed, or it contradicts what the acting call knows. *)
Ltac others_keep lj :=
  destruct lj; simpl in *; auto; destruct_and?;
  try contradiction; try congruence; auto.

(** Every atomic action keeps the invariant. *)
Lemma step_inv (tid : nat) (clk : Clock) (p : Process) :
  inv h p -> inv h (step h tid clk p).
Proof.
  intros Hinv. unfold step.
  destruct (callers p !! tid) as [l |] eqn:Hl; [| exact Hinv].
  pose proof (inv_pcs h p Hinv tid l Hl) as Hok.
  destruct l; simpl in Hok.
  - (* AtDo *)
    apply inv_goto_same with (l := AtDo); auto.
    destruct (once_done p) eqn:Hdone; simpl; auto.
  - (* AtLock *)
    destruct (once_m p) as [holder |] eqn:Hm; [exact Hinv |].
    apply (inv_goto p (set_once_m (Some tid) p) tid AtLock); auto.
    + reflexivity.
    + intros j lj Hne _ Hj. others_keep lj.
    + apply Hinv.
    + intros Hnot. destruct (inv_fresh h p Hinv Hnot) as [Hun | (j & Hj)]; auto.
      right. right. exists j. split; [intros -> ; congruence | exact Hj].
  - (* AtRecheck *)
    apply inv_goto_same with (l := AtRecheck); auto.
    destruct (once_done p) eqn:Hdone; simpl; auto.
    repeat split; auto;
      destruct (inv_fresh h p Hinv Hdone) as [[Hheap Hvar] | (j & Hj)]; auto;
      pose proof (inv_pcs h p Hinv j _ Hj) as (Hmj & _);
      congruence.
  - (* AtGetMachineID *)
    apply inv_goto_same with (l := AtGetMachineID); auto.
    simpl. tauto.
  - (* AtNew *)
    destruct Hok as (Hm & Hdone & [Hheap Hvar] & ->).
    apply (inv_goto p (construct (getMachineID h) p) tid
             (AtNew (getMachineID h))); auto.
    + simpl. repeat split; auto; unfold construct; simpl; rewrite Hheap;
        try reflexivity.
      eexists. split; reflexivity.
    + intros j lj Hne _ Hj.
      pose proof (other_not_holder p tid j lj Hm Hne Hj) as Hout.
      others_keep lj.
    + simpl. congruence.
  - (* AtStore *)
    destruct Hok as (Hm & Hdone & Hcons).
    apply (inv_goto p (set_once_done p) tid AtStore); auto.
    + simpl. auto.
    + intros j lj Hne _ Hj.
      pose proof (other_not_holder p tid j lj Hm Hne Hj) as Hout.
      others_keep lj.
    + simpl. discriminate.
  - (* AtUnlock *)
    destruct Hok as (Hm & Hdone).
    apply (inv_goto p (set_once_m None p) tid AtUnlock); auto.
    + intros j lj Hne _ Hj.
      pose proof (other_not_holder p tid j lj Hm Hne Hj) as Hout.
      others_keep lj.
    + apply Hinv.
    + simpl. congruence.
  - (* AtMint *)
    destruct (constructed_lookup p (inv_done h p Hinv Hok)) as (-> & _).
    apply inv_goto_same with (l := AtMint); auto.
    simpl. auto.
  - (* AtMintLock *)
    destruct Hok as (Hdone & ->).
    pose proof (inv_done h p Hinv Hdone) as Hcons.
    destruct (constructed_lookup p Hcons) as (_ & inst & Hinst).
    rewrite Hinst. destruct (mutex inst); [exact Hinv |].
    apply (inv_goto p (store 0 (mkInstance (gen inst) true) p) tid
             (AtMintLock 0)); auto.
    + simpl. auto.
    + intros j lj Hne _ Hj. others_keep lj.
    + intros _. eapply constructed_store; eauto.
    + simpl. congruence.
  - (* AtMintBody *)
    destruct Hok as (Hdone & ->).
    pose proof (inv_done h p Hinv Hdone) as Hcons.
    destruct (constructed_lookup p Hcons) as (_ & inst & Hinst).
    rewrite Hinst.
    destruct (Snowflake.GenerateSnowflakeID (gen inst) clk)
      as [[id gen'] |] eqn:Hmint; [| exact Hinv].
    apply mint_inversion in Hmint as (_ & Hmid & _).
    apply (inv_goto p (store 0 (mkInstance gen' false) p) tid
             (AtMintBody 0)); auto.
    + simpl. auto.
    + intros j lj Hne _ Hj. others_keep lj.
    + intros _. eapply constructed_store; eauto.
    + simpl. congruence.
  - (* Returned *) exact Hinv.
  - (* Crashed *) exact Hinv.
Qed.

Lemma run_inv (schedule : list (nat * Clock)) :
  forall p, inv h p -> inv h (run h schedule p).
Proof.
  induction schedule as [| [tid clk] rest IH]; intros p Hinv; simpl.
  - exact Hinv.
  - apply IH, step_inv, Hinv.
Qed.

End Invariant.

(** C5.  Take any number [n] of calls of the package-level
    [GenerateSnowflakeID] and any schedule interleaving their atomic
    actions, racing first calls included.  In the process reached: at most
    one generator has ever been constructed; no call has dereferenced a nil
    [snowflakeGenerator]; as soon as some call has come out of [once.Do],
    exactly one generator has been constructed, [snowflakeGenerator] points
    to it, and its discriminator is the output of [getMachineID], masked by
    [NewSnowflakeGenerator]; and every call that locks, runs or has
    returned from the method does so on that one generator. *)
Theorem exactly_one_generator (h : Host) (n : nat) (schedule : list (nat * Clock)) :
  let p := run h schedule (start n) in
  (length (heap p) <= 1)%nat /\
  (forall tid, callers p !! tid <> Some Crashed) /\
  (forall tid l,
     callers p !! tid = Some l -> past_once l = true ->
     length (heap p) = 1%nat /\
     snowflakeGenerator p = Some 0%nat /\
     exists inst,
       heap p !! 0%nat = Some inst /\
       machineID (gen inst) = machineID (NewSnowflakeGenerator (getMachineID h))) /\
  (forall tid sg,
     callers p !! tid = Some (AtMintLock sg) \/
     callers p !! tid = Some (AtMintBody sg) \/
     (exists id, callers p !! tid = Some (Returned sg id)) ->
     sg = 0%nat).
Proof.
  intros p.
  assert (Hinv : inv h p) by apply run_inv, inv_start.
  assert (Hpast : forall tid l, callers p !! tid = Some l ->
                                past_once l = true -> constructed h p).
  { intros tid l Hl Hp. pose proof (inv_pcs h p Hinv tid l Hl) as Hok.
    apply (inv_done h p Hinv).
    destruct l; simpl in *; try discriminate; tauto. }
  split; [| split; [| split]].
  - destruct (once_done p) eqn:Hdone.
    + destruct (inv_done h p Hinv Hdone) as (-> & _). lia.
    + destruct (inv_fresh h p Hinv Hdone) as [[-> _] | (tid & Htid)].
      * simpl. lia.
      * destruct (inv_pcs h p Hinv tid _ Htid) as (_ & _ & -> & _). lia.
  - intros tid Hl. exact (inv_pcs h p Hinv tid _ Hl).
  - intros tid l Hl Hp. exact (Hpast tid l Hl Hp).
  - intros tid sg [Hl | [Hl | [id Hl]]];
      pose proof (inv_pcs h p Hinv tid _ Hl) as Hok; simpl in Hok; tauto.
Qed.

(** Two calls race through [once.Do]: both read [done == 0] before either
    takes the mutex.  Call 0 constructs the generator; call 1 then finds
    [done] set under the mutex and constructs nothing.  Both mint on the
    generator at position 0, in clock millisecond 7. *)
Example two_racing_first_calls :
  let lan := IPNet [xc0; xa8; x01; x17] [xff; xff; xff; x00] in
  let h := mkHost ([lan], None) 4242 in
  let order := [0; 1; 0; 1; 0; 0; 0; 0; 0; 1; 1; 1; 1; 1; 1; 0; 0; 0]%nat in
  run h (map (fun tid => (tid, tick 7)) order) (start 2)
  = {| heap := [mkInstance (mkGen 7 1 23) false];
       snowflakeGenerator := Some 0%nat;
       once_done := true;
       once_m := None;
       callers := [Returned 0 29454337; Returned 0 29454336] |}.
Proof. vm_compute. reflexivity. Qed.

End RegistrySpec.

(** ** Further properties of the snowflake generator *)

Module SnowflakeMore.
Import Int64 Int64Facts Snowflake SnowflakeFacts.

(** Line 132 loses nothing: within a 42-bit signed timestamp, a 10-bit
    discriminator and a 12-bit sequence, fields that differ anywhere are
    composed into different identifiers. *)
Theorem compose_injective (ts m seq ts' m' seq' : Z) :
  - 2 ^ 41 <= ts < 2 ^ 41 -> 0 <= m < 2 ^ 10 -> 0 <= seq < 2 ^ 12 ->
  - 2 ^ 41 <= ts' < 2 ^ 41 -> 0 <= m' < 2 ^ 10 -> 0 <= seq' < 2 ^ 12 ->
  (ts, m, seq) <> (ts', m', seq') ->
  compose ts m seq <> compose ts' m' seq'.
Proof.
  intros Hts Hm Hseq Hts' Hm' Hseq' Hne Heq. apply Hne.
  pose proof (compose_timestamp ts m seq Hm Hseq Hts) as H1.
  pose proof (compose_machine ts m seq Hm Hseq) as H2.
  pose proof (compose_sequence ts m seq Hm Hseq) as H3.
  rewrite Heq in H1, H2, H3.
  rewrite compose_timestamp in H1 by assumption.
  rewrite compose_machine in H2 by assumption.
  rewrite compose_sequence in H3 by assumption.
  congruence.
Qed.

(** An instance: the same millisecond and discriminator, sequence numbers
    7 and 8. *)
Lemma compose_injective_witness :
  (5, 1, 7) <> (5, 1, 8) /\ compose 5 1 7 <> compose 5 1 8.
Proof.
  assert (Hne : (5, 1, 7) <> (5, 1, 8)) by discriminate.
  split; [exact Hne |].
  apply (compose_injective 5 1 7 5 1 8); try lia. exact Hne.
Defined.

(** Generators built with discriminators that differ in their low ten
    bits never return the same identifier, whatever their clocks do and
    whichever calls came before, overflow of the timestamp included. *)
Theorem distinct_discriminators_never_collide
    (d1 d2 : Z) (sg1 sg2 : SnowflakeGenerator) (c1 c2 : Clock)
    (id1 id2 : Z) (sg1' sg2' : SnowflakeGenerator) :
  Z.land d1 0x3FF <> Z.land d2 0x3FF ->
  reachable d1 sg1 -> reachable d2 sg2 ->
  GenerateSnowflakeID sg1 c1 = Some (id1, sg1') ->
  GenerateSnowflakeID sg2 c2 = Some (id2, sg2') ->
  id1 <> id2.
Proof.
  intros Hne Hr1 Hr2 Hs1 Hs2 Heq.
  destruct (reachable_wf d1 sg1 Hr1) as [Hwf1 Hm1].
  destruct (reachable_wf d2 sg2 Hr2) as [Hwf2 Hm2].
  pose proof (mint_wf _ _ _ _ Hwf1 Hs1) as [Hq1 _].
  pose proof (mint_wf _ _ _ _ Hwf2 Hs2) as [Hq2 _].
  apply mint_inversion in Hs1 as (_ & _ & ->).
  apply mint_inversion in Hs2 as (_ & _ & ->).
  apply (f_equal machine_of) in Heq.
  destruct Hwf1 as [_ Hb1], Hwf2 as [_ Hb2].
  rewrite !compose_machine in Heq by assumption.
  congruence.
Qed.

(** An instance: discriminators 1 and 2, both generators fresh and both
    called in millisecond 5. *)
Lemma distinct_discriminators_never_collide_witness :
  Z.land 1 0x3FF <> Z.land 2 0x3FF /\
  GenerateSnowflakeID (NewSnowflakeGenerator 1) (tick 5)
    = Some (20975616, mkGen 5 0 1) /\
  GenerateSnowflakeID (NewSnowflakeGenerator 2) (tick 5)
    = Some (20979712, mkGen 5 0 2) /\
  20975616 <> 20979712.
Proof.
  assert (Hne : Z.land 1 0x3FF <> Z.land 2 0x3FF)
    by (vm_compute; discriminate).
  split; [exact Hne |]. split; [reflexivity |]. split; [reflexivity |].
  apply (distinct_discriminators_never_collide 1 2
           (NewSnowflakeGenerator 1) (NewSnowflakeGenerator 2)
           (tick 5) (tick 5) 20975616 20979712
           (mkGen 5 0 1) (mkGen 5 0 2) Hne);
    constructor || reflexivity.
Defined.

(** *** Calls within one millisecond *)

Lemma same_millis_run (t m : Z) (cs : list Clock) :
  forall s,
    0 <= s -> s + Z.of_nat (length cs) <= 4095 ->
    Forall (fun c => now c = t) cs ->
    mint_all (mkGen t s m) cs
    = Some (map (fun k => compose t m (s + 1 + Z.of_nat k)) (seq 0 (length cs)),
            mkGen t (s + Z.of_nat (length cs)) m).
Proof.
  induction cs as [| c rest IH]; intros s Hs Hroom Hnow.
  - simpl. rewrite Z.add_0_r. reflexivity.
  - apply Forall_cons in Hnow as [Hc Hrest].
    simpl length in *.
    assert (Hstep : GenerateSnowflakeID (mkGen t s m) c
                    = Some (compose t m (s + 1), mkGen t (s + 1) m)).
    { unfold GenerateSnowflakeID, next_slot. simpl. rewrite Hc, Z.eqb_refl.
      rewrite next_sequence by lia.
      destruct (Z.eqb_spec s (2 ^ 12 - 1)); [lia |].
      destruct (Z.eqb_spec (s + 1) 0); [lia | reflexivity]. }
    simpl mint_all. rewrite Hstep, (IH (s + 1)) by (auto; lia).
    f_equal. f_equal.
    + simpl. f_equal; [f_equal; lia |].
      rewrite <- seq_shift, map_map. apply map_ext. intros k. f_equal. lia.
    + f_equal. lia.
Qed.

(** Up to 4096 calls within one millisecond [t], the first of them finding
    the generator at another timestamp, all return at once, without
    waiting: the [k]-th of them (from 0) returns the identifier composed
    of [t], the discriminator and the sequence number [k]. *)
Theorem burst_within_one_millisecond
    (sg : SnowflakeGenerator) (t : Z) (c : Clock) (rest : list Clock) :
  lastTimestamp sg <> t ->
  Forall (fun c' => now c' = t) (c :: rest) ->
  (length (c :: rest) <= 4096)%nat ->
  mint_all sg (c :: rest)
  = Some (map (fun k => compose t (machineID sg) (Z.of_nat k))
              (seq 0 (length (c :: rest))),
          mkGen t (Z.of_nat (length rest)) (machineID sg)).
Proof.
  intros Hne Hnow Hlen.
  apply Forall_cons in Hnow as [Hc Hrest]. simpl length in *.
  assert (Hstep : GenerateSnowflakeID sg c
                  = Some (compose t (machineID sg) 0, mkGen t 0 (machineID sg))).
  { unfold GenerateSnowflakeID, next_slot. rewrite Hc.
    destruct (Z.eqb_spec t (lastTimestamp sg)); [congruence | reflexivity]. }
  simpl mint_all. rewrite Hstep.
  rewrite (same_millis_run t (machineID sg) rest 0) by (auto; lia).
  f_equal. f_equal. simpl. f_equal.
  rewrite <- seq_shift, map_map. apply map_ext. intros k. f_equal. lia.
Qed.

(** An instance: three calls in millisecond 9 on a fresh generator. *)
Lemma burst_within_one_millisecond_witness :
  mint_all (NewSnowflakeGenerator 3) [tick 9; stalled 9 2; tick 9]
  = Some (map (fun k => compose 9 (machineID (NewSnowflakeGenerator 3)) (Z.of_nat k))
              (seq 0 (length [tick 9; stalled 9 2; tick 9])),
          mkGen 9 (Z.of_nat (length [stalled 9 2; tick 9]))
                (machineID (NewSnowflakeGenerator 3))).
Proof.
  apply (burst_within_one_millisecond (NewSnowflakeGenerator 3) 9).
  - simpl. lia.
  - repeat constructor.
  - simpl. lia.
Defined.

(** *** The sign of an identifier *)

Lemma shl_22_overflow (ts : Z) :
  2 ^ 41 <= ts < 2 ^ 42 -> shl ts 22 = ts * 2 ^ 22 - 2 ^ 64.
Proof.
  intros Hts. unfold shl, wrap. rewrite Z.shiftl_mul_pow2 by lia.
  replace (ts * 2 ^ 22 + 2 ^ 63)
    with (ts * 2 ^ 22 - 2 ^ 63 + 1 * 2 ^ 64) by lia.
  rewrite Z.mod_add by lia. rewrite Z.mod_small; lia.
Qed.

(** The timestamp is the Unix time in milliseconds, shifted left by 22
    bits without an epoch of its own: while it is below [2 ^ 41] the
    identifier is non-negative, and from [2 ^ 41] on (7 September 2039) the
    shift reaches the sign bit and the identifier is negative. *)
Theorem identifier_negative_from_2_41
    (d : Z) (sg : SnowflakeGenerator) (c : Clock) (id : Z)
    (sg' : SnowflakeGenerator) :
  reachable d sg ->
  GenerateSnowflakeID sg c = Some (id, sg') ->
  0 <= lastTimestamp sg' < 2 ^ 42 ->
  (id < 0 <-> 2 ^ 41 <= lastTimestamp sg').
Proof.
  intros Hreach Hstep Hts.
  destruct (reachable_wf d sg Hreach) as [Hwf _].
  pose proof (mint_wf _ _ _ _ Hwf Hstep) as [Hseq' _].
  destruct Hwf as [_ Hm].
  apply mint_inversion in Hstep as (_ & _ & ->).
  destruct (Z.lt_ge_cases (lastTimestamp sg') (2 ^ 41)) as [Hlow | Hhigh].
  - rewrite compose_exact by (assumption || lia). split; intros; nia.
  - destruct (compose_sum (lastTimestamp sg') (machineID sg) (sequence sg')
                Hm Hseq') as (k & Hk & ->).
    rewrite shl_22_overflow in Hk by lia.
    split; intros; [lia | nia].
Qed.

(** An instance: the first call in millisecond [2 ^ 41]. *)
Lemma identifier_negative_from_2_41_witness :
  GenerateSnowflakeID (NewSnowflakeGenerator 1) (tick (2 ^ 41))
    = Some (-9223372036854771712, mkGen (2 ^ 41) 0 1) /\
  (-9223372036854771712 < 0 <-> 2 ^ 41 <= lastTimestamp (mkGen (2 ^ 41) 0 1)).
Proof.
  assert (Hstep : GenerateSnowflakeID (NewSnowflakeGenerator 1) (tick (2 ^ 41))
                  = Some (-9223372036854771712, mkGen (2 ^ 41) 0 1))
    by reflexivity.
  split; [exact Hstep |].
  apply (identifier_negative_from_2_41 1 _ _ _ _ (reach_new 1) Hstep).
  simpl. lia.
Defined.

(** *** The wait after an exhausted sequence *)

Lemma wait_next_millis_skips (last : Z) (pre rest : list Z) :
  Forall (fun x => x <= last) pre ->
  forall ts, ts <= last ->
    wait_next_millis last (pre ++ rest) ts
    = match rest with
      | [] => if add last 1 <=? last then None else Some (add last 1)
      | p :: post => wait_next_millis last post p
      end.
Proof.
  induction 1 as [| x pre Hx _ IH]; intros ts Hts.
  - destruct rest as [| p post]; simpl;
      (destruct (Z.leb_spec ts last); [reflexivity | lia]).
  - simpl. destruct (Z.leb_spec ts last); [| lia]. apply IH. exact Hx.
Qed.

(** The 4097th call of a millisecond [t], finding the clock still at [t]:
    it skips the readings that are not past [t] and settles on the first
    one that is, with sequence 0; if the timer fires before any such
    reading it settles on [t + 1].  Either way it leaves the generator at
    a timestamp above [t]. *)
Theorem exhausted_call_moves_past_millisecond
    (t m r : Z) (pre : list Z) :
  min_int <= t < max_int ->
  Forall (fun x => x <= t) pre ->
  (forall p post, t < p ->
     GenerateSnowflakeID (mkGen t 4095 m) (mkClock t (pre ++ p :: post) r)
     = Some (compose p m 0, mkGen p 0 m)) /\
  GenerateSnowflakeID (mkGen t 4095 m) (mkClock t pre r)
  = Some (compose (t + 1) m 0, mkGen (t + 1) 0 m).
Proof.
  intros Ht Hpre. split.
  - intros p post Hp. unfold GenerateSnowflakeID, next_slot. simpl.
    rewrite Z.eqb_refl. simpl.
    rewrite wait_next_millis_skips by (auto; lia).
    destruct post; simpl; destruct (Z.leb_spec p t); try lia; reflexivity.
  - unfold GenerateSnowflakeID, next_slot. simpl.
    rewrite Z.eqb_refl. simpl.
    rewrite <- (app_nil_r pre) at 1.
    rewrite wait_next_millis_skips by (auto; lia).
    rewrite add_1_exact by lia.
    destruct (Z.leb_spec (t + 1) t); [lia | reflexivity].
Qed.

(** An instance: millisecond 5, the clock polled at 5 and at 4. *)
Lemma exhausted_call_moves_past_millisecond_witness :
  (forall p post, 5 < p ->
     GenerateSnowflakeID (mkGen 5 4095 1) (mkClock 5 ([5; 4] ++ p :: post) 8)
     = Some (compose p 1 0, mkGen p 0 1)) /\
  GenerateSnowflakeID (mkGen 5 4095 1) (mkClock 5 [5; 4] 8)
  = Some (compose (5 + 1) 1 0, mkGen (5 + 1) 0 1).
Proof.
  apply (exhausted_call_moves_past_millisecond 5 1 8 [5; 4]).
  - unfold min_int, max_int. lia.
  - repeat constructor; lia.
Defined.

End SnowflakeMore.

(** ** Further properties of the node identity resolver *)

Module MachineIDMore.
Import MachineID Snowflake.

Lemma To4_length (ip ip4 : IP) : To4 ip = Some ip4 -> length ip4 = 4%nat.
Proof.
  unfold To4. intros H.
  destruct (Nat.eqb_spec (length ip) 4) as [Hlen | _].
  - inversion H; subst. exact Hlen.
  - destruct (Nat.eqb_spec (length ip) 16) as [Hlen | _]; simpl in H;
      [| discriminate].
    destruct (isZeros (take 10 ip) && Byte.eqb (nth 10 ip x00) xff
              && Byte.eqb (nth 11 ip x00) xff); [| discriminate].
    inversion H; subst. rewrite length_drop, Hlen. reflexivity.
Qed.

Lemma octet_range (b : byte) : 0 <= Z.of_N (Byte.to_N b) <= 255.
Proof. pose proof (Byte.to_N_bounded b). lia. Qed.

Lemma first_ipv4_octet_result (addrs : list Addr) :
  snd (first_ipv4_octet addrs) = None /\
  0 <= fst (first_ipv4_octet addrs) <= 255.
Proof.
  induction addrs as [| [ip mask | ip zone] rest IH]; simpl.
  - split; [reflexivity | lia].
  - destruct (IsLoopback ip); simpl; [exact IH |].
    destruct (To4 ip) as [ip4 |]; [| exact IH].
    split; [reflexivity | apply octet_range].
  - exact IH.
Qed.

Lemma getLastIPOctet_bounds (h : Host) :
  0 <= fst (getLastIPOctet h) <= 255.
Proof.
  unfold getLastIPOctet.
  destruct (InterfaceAddrs h) as [addrs [err |]]; simpl; [lia |].
  apply first_ipv4_octet_result.
Qed.

(** [getLastIPOctet] reports an error exactly when [net.InterfaceAddrs]
    does, and the same one: the search through the addresses never fails
    by itself, not even when it finds nothing.  Its value is always
    within one byte. *)
Theorem getLastIPOctet_error_is_enumeration_error (h : Host) :
  snd (getLastIPOctet h) = snd (InterfaceAddrs h) /\
  0 <= fst (getLastIPOctet h) <= 255.
Proof.
  unfold getLastIPOctet.
  destruct (InterfaceAddrs h) as [addrs [err |]]; simpl.
  - split; [reflexivity | lia].
  - apply first_ipv4_octet_result.
Qed.

(** With a process id that is not negative, [getMachineID] returns a value
    of [0..1023], so that [NewSnowflakeGenerator] stores it as it is: the
    mask of line 101 changes nothing of the resolver's output. *)
Theorem getMachineID_fits_discriminator (h : Host) :
  0 <= Getpid h ->
  0 <= getMachineID h <= 1023 /\
  machineID (NewSnowflakeGenerator (getMachineID h)) = getMachineID h.
Proof.
  intros Hpid.
  assert (Hrange : 0 <= getMachineID h <= 1023).
  { unfold getMachineID.
    pose proof (getLastIPOctet_bounds h) as Hb.
    destruct (getLastIPOctet h) as [ip [err |]]; simpl in Hb.
    - pose proof (Z.rem_bound_pos (Getpid h) 1024 Hpid). lia.
    - lia. }
  split; [exact Hrange |].
  simpl. change 0x3FF with (Z.ones 10). rewrite Z.land_ones by lia.
  apply Z.mod_small. lia.
Qed.

(** An instance: no address at all and the enumeration failing, process
    id 4242. *)
Lemma getMachineID_fits_discriminator_witness :
  0 <= Getpid (mkHost ([], Some "permission denied"%string) 4242) /\
  0 <= getMachineID (mkHost ([], Some "permission denied"%string) 4242) <= 1023 /\
  machineID (NewSnowflakeGenerator
               (getMachineID (mkHost ([], Some "permission denied"%string) 4242)))
  = getMachineID (mkHost ([], Some "permission denied"%string) 4242).
Proof.
  assert (H : 0 <= Getpid (mkHost ([], Some "permission denied"%string) 4242))
    by (simpl; lia).
  split; [exact H | exact (getMachineID_fits_discriminator _ H)].
Defined.

Lemma first_ipv4_octet_skips (pre rest : list Addr) :
  forallb (fun a => negb (qualifies a)) pre = true ->
  first_ipv4_octet (pre ++ rest) = first_ipv4_octet rest.
Proof.
  induction pre as [| [ip mask | ip zone] pre IH]; simpl; intros H.
  - reflexivity.
  - apply andb_prop in H as [Hq Hpre].
    destruct (IsLoopback ip); simpl in *; [auto |].
    destruct (To4 ip) as [ip4 |]; [| auto].
    rewrite bool_decide_eq_true_2 in Hq by eauto. discriminate.
  - auto.
Qed.

(** When the enumeration succeeds, the machine id is the last byte of the
    first address that is an [*net.IPNet], is not a loopback address and
    has a 4-byte form [ip4]; addresses listed after it and the process id
    play no part.  That form has exactly four bytes, so the index of line
    81 is within bounds. *)
Theorem getMachineID_first_qualifying_address
    (h : Host) (pre post : list Addr) (ip ip4 : IP) (mask : list byte) :
  InterfaceAddrs h = (pre ++ IPNet ip mask :: post, None) ->
  forallb (fun a => negb (qualifies a)) pre = true ->
  IsLoopback ip = false ->
  To4 ip = Some ip4 ->
  length ip4 = 4%nat /\
  last ip4 = Some (nth 3 ip4 x00) /\
  getMachineID h = Z.of_N (Byte.to_N (nth 3 ip4 x00)).
Proof.
  intros Haddrs Hpre Hlo H4.
  pose proof (To4_length ip ip4 H4) as Hlen.
  split; [exact Hlen |]. split.
  - destruct ip4 as [| a [| b [| c [| e [| ? ?]]]]]; try discriminate.
    reflexivity.
  - unfold getMachineID, getLastIPOctet. rewrite Haddrs.
    rewrite first_ipv4_octet_skips by exact Hpre.
    simpl. rewrite Hlo, H4. reflexivity.
Qed.

(** An instance: 127.0.0.1/8, then 10.1.2.77/16, then 192.168.1.23/24. *)
Lemma getMachineID_first_qualifying_address_witness :
  length [x0a; x01; x02; x4d] = 4%nat /\
  last [x0a; x01; x02; x4d] = Some (nth 3 [x0a; x01; x02; x4d] x00) /\
  getMachineID
    (mkHost ([IPNet [x7f; x00; x00; x01] [xff; x00; x00; x00]]
             ++ IPNet [x0a; x01; x02; x4d] [xff; xff; x00; x00]
             :: [IPNet [xc0; xa8; x01; x17] [xff; xff; xff; x00]], None) 4242)
  = Z.of_N (Byte.to_N (nth 3 [x0a; x01; x02; x4d] x00)).
Proof.
  apply (getMachineID_first_qualifying_address
           (mkHost ([IPNet [x7f; x00; x00; x01] [xff; x00; x00; x00]]
                    ++ IPNet [x0a; x01; x02; x4d] [xff; xff; x00; x00]
                    :: [IPNet [xc0; xa8; x01; x17] [xff; xff; xff; x00]], None)
                   4242)
           [IPNet [x7f; x00; x00; x01] [xff; x00; x00; x00]]
           [IPNet [xc0; xa8; x01; x17] [xff; xff; xff; x00]]
           [x0a; x01; x02; x4d] [x0a; x01; x02; x4d] [xff; xff; x00; x00]);
    reflexivity.
Defined.

End MachineIDMore.

(** ** Further properties of the random hex strings *)

Module RandomHexMore.
Import RandomHex HexDecode RandomHexSpec.

Lemma byte_of_digits_encode (v : byte) :
  byte_of_digits (hextable_at (N.shiftr (Byte.to_N v) 4))
                 (hextable_at (N.land (Byte.to_N v) 0x0f)) = Some v.
Proof. destruct v; reflexivity. Qed.

(** The encoding can be read back: decoding the text of a byte slice
    gives the slice again. *)
Lemma decode_Encode (src : list byte) :
  decode (Encode src) = Some src.
Proof.
  induction src as [| v rest IH]; simpl; [reflexivity |].
  rewrite byte_of_digits_encode, IH. reflexivity.
Qed.

Lemma Encode_injective (a b : list byte) :
  Encode a = Encode b -> a = b.
Proof.
  intros H. apply (f_equal decode) in H.
  rewrite !decode_Encode in H. congruence.
Qed.

Lemma map_seq_ext (src1 src2 : nat -> byte) (n : nat) :
  map src1 (seq 0 n) = map src2 (seq 0 n) ->
  forall i, (i < n)%nat -> src1 i = src2 i.
Proof.
  intros H i Hi.
  assert (H1 : map src1 (seq 0 n) !! i = Some (src1 i)).
  { rewrite list_lookup_fmap, lookup_seq_lt by exact Hi. reflexivity. }
  assert (H2 : map src2 (seq 0 n) !! i = Some (src2 i)).
  { rewrite list_lookup_fmap, lookup_seq_lt by exact Hi. reflexivity. }
  rewrite H in H1. congruence.
Qed.

(** What a call returns when the read succeeds is the text of the bytes
    read. *)
Lemma supplied_call_returns_encoding
    (rt : Runtime) (n : Z) (src : nat -> byte) (s : string) :
  GenerateRandomHexString rt n (Supplies src) = Returns s ->
  s = Encode (map src (seq 0 (Z.to_nat n))).
Proof.
  unfold GenerateRandomHexString.
  destruct (make_bytes rt n) as [bytes | |] eqn:Hmake; simpl;
    [| discriminate | discriminate].
  apply make_bytes_inversion in Hmake as [_ ->].
  destruct (Z.to_nat n) as [| k]; simpl.
  - intros H. apply EncodeToString_inversion in H. exact H.
  - rewrite repeat_length. intros H.
    apply EncodeToString_inversion in H. exact H.
Qed.

(** The string keeps all the entropy that was read: two calls for the
    same length (an [int]) that both return, and whose random bytes
    differ at some position, return different strings. *)
Theorem different_bytes_give_different_strings
    (rt : Runtime) (n : Z) (src1 src2 : nat -> byte) (i : nat)
    (s1 s2 : string) :
  n <= Int64.max_int ->
  (i < Z.to_nat n)%nat ->
  src1 i <> src2 i ->
  GenerateRandomHexString rt n (Supplies src1) = Returns s1 ->
  GenerateRandomHexString rt n (Supplies src2) = Returns s2 ->
  s1 <> s2.
Proof.
  intros _ Hi Hne H1 H2 Heq.
  apply supplied_call_returns_encoding in H1, H2. subst s1 s2.
  apply Encode_injective in Heq.
  apply Hne. eapply map_seq_ext; eauto.
Qed.

(** An instance: two bytes, the second of which differs. *)
Lemma different_bytes_give_different_strings_witness :
  GenerateRandomHexString linux_amd64 2
    (Supplies (fun i => nth i [xab; x00] x00)) = Returns "ab00"%string /\
  GenerateRandomHexString linux_amd64 2
    (Supplies (fun i => nth i [xab; x01] x00)) = Returns "ab01"%string /\
  "ab00"%string <> "ab01"%string.
Proof.
  assert (H1 : GenerateRandomHexString linux_amd64 2
                 (Supplies (fun i => nth i [xab; x00] x00))
               = Returns "ab00"%string) by reflexivity.
  assert (H2 : GenerateRandomHexString linux_amd64 2
                 (Supplies (fun i => nth i [xab; x01] x00))
               = Returns "ab01"%string) by reflexivity.
  split; [exact H1 |]. split; [exact H2 |].
  apply (different_bytes_give_different_strings linux_amd64 2
           (fun i => nth i [xab; x00] x00) (fun i => nth i [xab; x01] x00)
           1%nat "ab00" "ab01");
    solve [unfold Int64.max_int; simpl; lia | simpl; discriminate
          | assumption].
Defined.

End RandomHexMore.

(** ** Properties of the prefixed identifiers *)

Module PrefixedSpec.
Import Prefixed.

Lemma substring_append_left (a b : string) :
  substring 0 (String.length a) (a ++ b) = a.
Proof.
  induction a as [| ch a IH]; simpl.
  - destruct b; reflexivity.
  - rewrite IH. reflexivity.
Qed.

Lemma substring_append_right (a b : string) :
  substring (String.length a) (String.length b) (a ++ b) = b.
Proof.
  induction a as [| ch a IH]; simpl; [| exact IH].
  induction b as [| ch b IHb]; simpl; [reflexivity |].
  rewrite IHb. reflexivity.
Qed.

Lemma length_append (a b : string) :
  String.length (a ++ b) = (String.length a + String.length b)%nat.
Proof.
  induction a as [| ch a IH]; simpl; [reflexivity | rewrite IH; reflexivity].
Qed.

Lemma append_assoc (a b c : string) :
  ((a ++ b) ++ c = a ++ (b ++ c))%string.
Proof.
  induction a as [| ch a IH]; simpl; [reflexivity | rewrite IH; reflexivity].
Qed.

Lemma get_append_right (a b : string) :
  String.get (String.length a) (a ++ b) = String.get 0 b.
Proof.
  induction a as [| ch a IH]; simpl; [reflexivity | exact IH].
Qed.

(** The prefix is not validated, and need not be: whatever it contains,
    dashes included, the result is 37 characters longer than the prefix
    and splits back, counted from its end, into the prefix, one dash and
    the 36 characters of the UUID. *)
Theorem prefixed_id_splits_back (prefix uuid : string) :
  String.length uuid = uuid_text_length ->
  let r := GenerateUuidWithPrefix prefix uuid in
  String.length r = (String.length prefix + 37)%nat /\
  substring 0 (String.length r - 37) r = prefix /\
  String.get (String.length r - 37) r = Some "-"%char /\
  substring (String.length r - 36) 36 r = uuid.
Proof.
  intros Hlen r. unfold uuid_text_length in Hlen.
  assert (Hr : String.length r = (String.length prefix + 37)%nat).
  { unfold r, GenerateUuidWithPrefix. rewrite !length_append, Hlen.
    simpl. lia. }
  split; [exact Hr |]. rewrite Hr.
  replace (String.length prefix + 37 - 37)%nat with (String.length prefix) by lia.
  replace (String.length prefix + 37 - 36)%nat
    with (String.length (prefix ++ "-")) by (rewrite length_append; simpl; lia).
  split; [| split].
  - unfold r, GenerateUuidWithPrefix. rewrite append_assoc.
    apply substring_append_left.
  - unfold r, GenerateUuidWithPrefix. rewrite append_assoc.
    rewrite get_append_right. reflexivity.
  - unfold r, GenerateUuidWithPrefix. rewrite <- Hlen.
    apply substring_append_right.
Qed.

(** An instance: a prefix that itself contains dashes. *)
Lemma prefixed_id_splits_back_witness :
  let uuid := "123e4567-e89b-42d3-a456-426614174000"%string in
  let r := GenerateUuidWithPrefix "order-eu-1" uuid in
  String.length uuid = uuid_text_length /\
  r = "order-eu-1-123e4567-e89b-42d3-a456-426614174000"%string /\
  String.length r = (String.length "order-eu-1" + 37)%nat /\
  substring 0 (String.length r - 37) r = "order-eu-1"%string /\
  String.get (String.length r - 37) r = Some "-"%char /\
  substring (String.length r - 36) 36 r = uuid.
Proof.
  split; [reflexivity |]. split; [reflexivity |].
  exact (prefixed_id_splits_back "order-eu-1"
           "123e4567-e89b-42d3-a456-426614174000" eq_refl).
Defined.

End PrefixedSpec.

(** ** Further properties of the generator registry *)

Module RegistryMore.
Import Snowflake MachineID Registry RegistryJournal SnowflakeFacts RegistrySpec.

Section Linearization.
Variable h : Host.

(** What one action does to the generator behind [snowflakeGenerator]:
    a returning method body is one call of the method on it, and every
    other action leaves it alone. *)
Lemma step_current (tid : nat) (clk : Clock) (p : Process) :
  inv h p ->
  match handed_out tid clk p with
  | Some id =>
      Snowflake.GenerateSnowflakeID (current h p) clk
      = Some (id, current h (step h tid clk p))
  | None => current h (step h tid clk p) = current h p
  end.
Proof.
  intros Hinv. unfold handed_out, step.
  destruct (callers p !! tid) as [l |] eqn:Hl; [| reflexivity].
  pose proof (inv_pcs h p Hinv tid l Hl) as Hok.
  destruct l; simpl in Hok; try reflexivity.
  - (* AtLock *) destruct (once_m p); reflexivity.
  - (* AtNew *)
    destruct Hok as (_ & _ & [Hheap _] & ->).
    unfold current, goto, construct. simpl. rewrite Hheap. reflexivity.
  - (* AtMint *) destruct (snowflakeGenerator p); reflexivity.
  - (* AtMintLock *)
    destruct Hok as (_ & ->).
    destruct (heap p !! 0%nat) as [inst |] eqn:Hinst; [| reflexivity].
    destruct (mutex inst); [reflexivity |].
    unfold current, goto, store. simpl.
    rewrite list_lookup_insert_eq by (eapply lookup_lt_Some; eauto).
    rewrite Hinst. reflexivity.
  - (* AtMintBody *)
    destruct Hok as (_ & ->).
    destruct (heap p !! 0%nat) as [inst |] eqn:Hinst; [| reflexivity].
    destruct (Snowflake.GenerateSnowflakeID (gen inst) clk)
      as [[id gen'] |] eqn:Hmint; simpl; [| reflexivity].
    unfold current at 1. rewrite Hinst, Hmint. f_equal. f_equal.
    unfold current, goto, store. simpl.
    rewrite list_lookup_insert_eq by (eapply lookup_lt_Some; eauto).
    reflexivity.
Qed.

Lemma journal_is_sequential (schedule : list (nat * Clock)) :
  forall p,
    inv h p ->
    mint_all (current h p) (map entry_clock (journal h schedule p))
    = Some (map entry_id (journal h schedule p),
            current h (run h schedule p)).
Proof.
  induction schedule as [| [tid clk] rest IH]; intros p Hinv; simpl.
  - reflexivity.
  - pose proof (step_current tid clk p Hinv) as Hstep.
    pose proof (step_inv h tid clk p Hinv) as Hinv'.
    destruct (handed_out tid clk p) as [id |]; simpl.
    + unfold entry_clock at 1. simpl. rewrite Hstep, (IH _ Hinv').
      reflexivity.
    + rewrite <- Hstep. apply IH, Hinv'.
Qed.

(** A call that has returned stays as it is. *)
Lemma step_keeps_returned (tid : nat) (clk : Clock) (p : Process)
    (j sg : nat) (id : Z) :
  callers p !! j = Some (Returned sg id) ->
  callers (step h tid clk p) !! j = Some (Returned sg id).
Proof.
  intros Hj. unfold step.
  destruct (callers p !! tid) as [l |] eqn:Hl; [| exact Hj].
  assert (Hne : l = Returned sg id \/ j <> tid).
  { destruct (decide (j = tid)) as [-> | Hne]; [left; congruence | auto]. }
  destruct l;
    repeat match goal with
           | |- context [match ?x with _ => _ end] => destruct x
           end;
    try exact Hj;
    (destruct Hne as [Hne | Hne]; [discriminate Hne |]);
    simpl; rewrite list_lookup_insert_ne by auto; exact Hj.
Qed.

(** A call returns by the action that hands its identifier out, and by no
    other. *)
Lemma step_new_returned (tid : nat) (clk : Clock) (p : Process)
    (j sg : nat) (id : Z) :
  callers (step h tid clk p) !! j = Some (Returned sg id) ->
  callers p !! j = Some (Returned sg id) \/
  j = tid /\ handed_out tid clk p = Some id.
Proof.
  unfold step, handed_out.
  destruct (callers p !! tid) as [l |] eqn:Hl; [| auto].
  destruct l;
    repeat match goal with
           | |- context [match ?x with _ => _ end] => destruct x eqn:?
           end;
    auto; simpl; intros Hj;
    apply list_lookup_insert_Some in Hj as [(<- & Heq & _) | (_ & Hj)];
    auto; try discriminate Heq.
  inversion Heq; subst. auto.
Qed.

Lemma handed_out_returns (tid : nat) (clk : Clock) (p : Process) (id : Z) :
  handed_out tid clk p = Some id ->
  returned_with (step h tid clk p) tid id /\
  forall id', ~ returned_with p tid id'.
Proof.
  unfold handed_out, step, returned_with. intros H.
  destruct (callers p !! tid) as [l |] eqn:Hl; [| discriminate].
  destruct l; try discriminate.
  destruct (heap p !! sg) as [inst |]; [| discriminate].
  destruct (Snowflake.GenerateSnowflakeID (gen inst) clk) as [[id0 gen'] |];
    [| discriminate].
  inversion H; subst. split.
  - exists sg. simpl. apply list_lookup_insert_eq.
    eapply lookup_lt_Some; eauto.
  - intros id' [sg' Hret]. discriminate.
Qed.

Lemma run_keeps_returned (schedule : list (nat * Clock)) :
  forall p tid id,
    returned_with p tid id -> returned_with (run h schedule p) tid id.
Proof.
  induction schedule as [| [t clk] rest IH]; intros p tid id Hret; simpl.
  - exact Hret.
  - apply IH. destruct Hret as [sg Hret]. exists sg.
    apply step_keeps_returned, Hret.
Qed.

(** Every entry of the journal belongs to a call that had not returned
    before and has returned, with that identifier, at the end. *)
Lemma journal_entries (schedule : list (nat * Clock)) :
  forall p e,
    e ∈ journal h schedule p ->
    returned_with (run h schedule p) (entry_call e) (entry_id e) /\
    forall id', ~ returned_with p (entry_call e) id'.
Proof.
  induction schedule as [| [t clk] rest IH]; intros p e He; simpl in *.
  - apply elem_of_nil in He. contradiction.
  - assert (Htail : e ∈ journal h rest (step h t clk p) ->
                    returned_with (run h rest (step h t clk p))
                                  (entry_call e) (entry_id e) /\
                    forall id', ~ returned_with p (entry_call e) id').
    { intros Hin. destruct (IH _ _ Hin) as [Hret Hnot].
      split; [exact Hret |]. intros id' [sg Hp].
      apply (Hnot id'). exists sg. apply step_keeps_returned, Hp. }
    destruct (handed_out t clk p) as [id |] eqn:Hout; [| auto].
    apply elem_of_cons in He as [-> | Hin]; [| auto].
    destruct (handed_out_returns t clk p id Hout) as [Hret Hnot].
    split; [| exact Hnot].
    apply run_keeps_returned, Hret.
Qed.

(** A call that has returned at the end had returned at the start or has
    its entry in the journal. *)
Lemma returned_in_journal (schedule : list (nat * Clock)) :
  forall p tid id,
    returned_with (run h schedule p) tid id ->
    returned_with p tid id \/
    exists clk, (tid, clk, id) ∈ journal h schedule p.
Proof.
  induction schedule as [| [t clk] rest IH]; intros p tid id Hret; simpl in *.
  - auto.
  - destruct (IH _ _ _ Hret) as [[sg Hstep] | [clk' Hin]].
    + apply step_new_returned in Hstep as [Hp | [-> Hout]].
      * left. exists sg. exact Hp.
      * right. exists clk. rewrite Hout. apply elem_of_cons. auto.
    + right. exists clk'.
      destruct (handed_out t clk p); [apply elem_of_cons |]; auto.
Qed.

Lemma journal_calls_once (schedule : list (nat * Clock)) :
  forall p, NoDup (map entry_call (journal h schedule p)).
Proof.
  induction schedule as [| [t clk] rest IH]; intros p; simpl.
  - constructor.
  - destruct (handed_out t clk p) as [id |] eqn:Hout; [| apply IH].
    simpl. constructor; [| apply IH].
    intros Hin. apply list_elem_of_fmap in Hin as (e & Hcall & He).
    destruct (journal_entries _ _ _ He) as [_ Hnot].
    destruct (handed_out_returns t clk p id Hout) as [Hret _].
    apply (Hnot id). rewrite <- Hcall. exact Hret.
Qed.

End Linearization.

(** However the calls of the package-level [GenerateSnowflakeID] are
    interleaved, the identifiers they get are those of one generator,
    built from the output of [getMachineID] and called once per returning
    call, in the order in which the method bodies ran and with the clocks
    they saw.  Each call appears there at most once, and the calls that
    have returned are exactly the ones that appear, each with its
    identifier. *)
Theorem registry_is_one_sequential_generator
    (h : Host) (n : nat) (schedule : list (nat * Clock)) :
  let p := run h schedule (start n) in
  let j := journal h schedule (start n) in
  mint_all (NewSnowflakeGenerator (getMachineID h)) (map entry_clock j)
  = Some (map entry_id j, current h p) /\
  NoDup (map entry_call j) /\
  forall tid id,
    returned_with p tid id <-> exists clk, (tid, clk, id) ∈ j.
Proof.
  intros p j.
  split; [| split].
  - exact (journal_is_sequential h schedule (start n) (inv_start h n)).
  - apply journal_calls_once.
  - intros tid id. split.
    + intros Hret.
      destruct (returned_in_journal h schedule (start n) tid id Hret)
        as [[sg Hstart] | Hin]; [| exact Hin].
      simpl in Hstart. apply lookup_replicate in Hstart as [Hbad _].
      discriminate.
    + intros [clk Hin].
      apply (journal_entries h schedule (start n) (tid, clk, id) Hin).
Qed.

(** Uniqueness under concurrency.  If the clocks seen by the method
    bodies, in the order they ran, fit the timestamp field and are never
    behind the timestamp of the identifier handed out before, then two
    different calls that have returned hold different identifiers. *)
Theorem concurrent_calls_get_distinct_identifiers
    (h : Host) (n : nat) (schedule : list (nat * Clock))
    (tid1 tid2 : nat) (id1 id2 : Z) :
  let p := run h schedule (start n) in
  let j := journal h schedule (start n) in
  Forall fits_field (map entry_clock j) ->
  clock_never_behind (NewSnowflakeGenerator (getMachineID h))
                     (map entry_clock j) ->
  tid1 <> tid2 ->
  returned_with p tid1 id1 ->
  returned_with p tid2 id2 ->
  id1 <> id2.
Proof.
  intros p j Hfits Hahead Hne Hret1 Hret2.
  destruct (returned_in_journal h schedule (start n) tid1 id1 Hret1)
    as [[sg Hstart] | [clk1 Hin1]].
  { simpl in Hstart. apply lookup_replicate in Hstart as [Hbad _].
    discriminate. }
  destruct (returned_in_journal h schedule (start n) tid2 id2 Hret2)
    as [[sg Hstart] | [clk2 Hin2]].
  { simpl in Hstart. apply lookup_replicate in Hstart as [Hbad _].
    discriminate. }
  fold j in Hin1, Hin2.
  apply list_elem_of_lookup in Hin1 as [i1 Hi1].
  apply list_elem_of_lookup in Hin2 as [i2 Hi2].
  assert (Hidx : i1 <> i2) by (intros ->; congruence).
  destruct (mint_all_increasing (map entry_clock j)
              (NewSnowflakeGenerator (getMachineID h)))
    as (ids & sg' & Hrun & _ & _ & Hsorted);
    auto using new_wf; [simpl; lia |].
  pose proof (journal_is_sequential h schedule (start n) (inv_start h n))
    as Hseq.
  fold j in Hseq. change (current h (start n))
    with (NewSnowflakeGenerator (getMachineID h)) in Hseq.
  rewrite Hseq in Hrun. inversion Hrun; subst ids.
  assert (Hid1 : map entry_id j !! i1 = Some id1)
    by (rewrite list_lookup_fmap, Hi1; reflexivity).
  assert (Hid2 : map entry_id j !! i2 = Some id2)
    by (rewrite list_lookup_fmap, Hi2; reflexivity).
  destruct (Nat.lt_total i1 i2) as [Hlt | [Heq | Hgt]]; [| contradiction |].
  - pose proof (Hsorted i1 i2 id1 id2 Hlt Hid1 Hid2). lia.
  - pose proof (Hsorted i2 i1 id2 id1 Hgt Hid2 Hid1). lia.
Qed.

(** An instance: the two racing first calls, both in millisecond 7. *)
Lemma concurrent_calls_get_distinct_identifiers_witness :
  let lan := IPNet [xc0; xa8; x01; x17] [xff; xff; xff; x00] in
  let h := mkHost ([lan], None) 4242 in
  let order := [0; 1; 0; 1; 0; 0; 0; 0; 0; 1; 1; 1; 1; 1; 1; 0; 0; 0]%nat in
  let schedule := map (fun tid => (tid, tick 7)) order in
  journal h schedule (start 2)
    = [(1%nat, tick 7, 29454336); (0%nat, tick 7, 29454337)] /\
  returned_with (run h schedule (start 2)) 0 29454337 /\
  returned_with (run h schedule (start 2)) 1 29454336 /\
  29454337 <> 29454336.
Proof.
  intros lan h order schedule.
  assert (Hj : journal h schedule (start 2)
               = [(1%nat, tick 7, 29454336); (0%nat, tick 7, 29454337)])
    by (vm_compute; reflexivity).
  assert (H0 : returned_with (run h schedule (start 2)) 0 29454337)
    by (exists 0%nat; vm_compute; reflexivity).
  assert (H1 : returned_with (run h schedule (start 2)) 1 29454336)
    by (exists 0%nat; vm_compute; reflexivity).
  split; [exact Hj |]. split; [exact H0 |]. split; [exact H1 |].
  apply (concurrent_calls_get_distinct_identifiers h 2 schedule 0 1
           29454337 29454336); auto.
  - rewrite Hj. unfold fits_field. repeat (constructor; simpl; try lia).
  - rewrite Hj. vm_compute. repeat split; discriminate.
Defined.

End RegistryMore.

(** ** The mutexes of the registry: exclusion and freedom from deadlock *)

Module RegistryLocksSpec.
Import Snowflake MachineID Registry RegistryLocks SnowflakeFacts RegistrySpec.

Section Locks.
Variable h : Host.

Lemma locks_start (n : nat) : locks_ok (start n).
Proof.
  split; simpl.
  - discriminate.
  - intros i l Hl. apply lookup_replicate in Hl as [-> _]. discriminate.
  - intros i j li lj Hi. apply lookup_replicate in Hi as [-> _]. discriminate.
  - intros inst Hinst. discriminate Hinst.
Qed.

(** How the description of the mutexes is carried over an action of call
    [tid] from [l] to [l']. *)
Lemma locks_goto (p q : Process) (tid : nat) (l l' : pc) :
  locks_ok p ->
  callers p !! tid = Some l ->
  callers q = callers p ->
  (forall t, once_m q = Some t ->
             t = tid /\ in_doSlow l' = true \/ t <> tid /\ once_m p = Some t) ->
  (forall i li, (i = tid /\ li = l') \/ (i <> tid /\ callers p !! i = Some li) ->
                in_body li = true ->
                exists inst, heap q !! 0%nat = Some inst /\ mutex inst = true) ->
  (in_body l' = true ->
   forall i li, i <> tid -> callers p !! i = Some li -> in_body li = false) ->
  (forall inst, heap q !! 0%nat = Some inst -> mutex inst = true ->
                in_body l' = true \/
                exists i li, i <> tid /\ callers p !! i = Some li /\
                             in_body li = true) ->
  locks_ok (goto tid l' q).
Proof.
  intros Hlocks Hl Hcallers Honce Hholds Halone Hmutex.
  assert (Htid : (tid < length (callers p))%nat)
    by (eapply lookup_lt_Some; eauto).
  assert (Hlook : forall i li,
             callers (goto tid l' q) !! i = Some li <->
             (i = tid /\ li = l') \/ (i <> tid /\ callers p !! i = Some li)).
  { intros i li. simpl. rewrite Hcallers, list_lookup_insert_Some.
    split.
    - intros [(<- & <- & _) | (Hne & Hi)]; auto.
    - intros [[-> ->] | [Hne Hi]]; auto. }
  split.
  - intros t Ht. destruct (Honce t Ht) as [[-> Hin] | [Hne Hp]].
    + exists l'. split; [apply Hlook; auto | exact Hin].
    + destruct (once_holder p Hlocks t Hp) as (lt & Hlt & Hin).
      exists lt. split; [apply Hlook; auto | exact Hin].
  - intros i li Hi Hin. apply Hlook in Hi. exact (Hholds i li Hi Hin).
  - intros i j li lj Hi Hj Hini Hinj.
    apply Hlook in Hi as [[-> ->] | [Hni Hi]];
      apply Hlook in Hj as [[-> ->] | [Hnj Hj]]; auto.
    + rewrite (Halone Hini j lj Hnj Hj) in Hinj. discriminate.
    + rewrite (Halone Hinj i li Hni Hi) in Hini. discriminate.
    + exact (body_alone p Hlocks i j li lj Hi Hj Hini Hinj).
  - intros inst Hinst Hm.
    destruct (Hmutex inst Hinst Hm) as [Hin | (i & li & Hne & Hi & Hin)].
    + exists tid, l'. split; [apply Hlook; auto | exact Hin].
    + exists i, li. split; [apply Hlook; auto | exact Hin].
Qed.

(** The mutex of [once] is untouched and the call stays on its side of it. *)
Lemma once_unchanged (p q : Process) (tid : nat) (l l' : pc) :
  locks_ok p ->
  callers p !! tid = Some l ->
  once_m q = once_m p ->
  in_doSlow l' = in_doSlow l ->
  forall t, once_m q = Some t ->
            t = tid /\ in_doSlow l' = true \/ t <> tid /\ once_m p = Some t.
Proof.
  intros Hlocks Hl Hm Hside t Ht. rewrite Hm in Ht.
  destruct (decide (t = tid)) as [-> | Hne]; [left | right; auto].
  destruct (once_holder p Hlocks tid Ht) as (lt & Hlt & Hin).
  split; [reflexivity |]. rewrite Hside. congruence.
Qed.

(** An action that touches neither the heap nor the method body. *)
Lemma locks_goto_outside (p q : Process) (tid : nat) (l l' : pc) :
  locks_ok p ->
  callers p !! tid = Some l ->
  callers q = callers p ->
  heap q = heap p ->
  in_body l = false -> in_body l' = false ->
  (forall t, once_m q = Some t ->
             t = tid /\ in_doSlow l' = true \/ t <> tid /\ once_m p = Some t) ->
  locks_ok (goto tid l' q).
Proof.
  intros Hlocks Hl Hcallers Hheap Hout Hout' Honce.
  apply (locks_goto p q tid l l'); auto.
  - intros i li [[-> ->] | [Hne Hi]] Hin; [congruence |].
    rewrite Hheap. exact (body_holds p Hlocks i li Hi Hin).
  - congruence.
  - intros inst Hinst Hm. right. rewrite Hheap in Hinst.
    destruct (mutex_holder p Hlocks inst Hinst Hm) as (i & li & Hi & Hin).
    exists i, li. repeat split; auto. intros ->. congruence.
Qed.

(** Every atomic action keeps the description of the mutexes. *)
Lemma step_locks (tid : nat) (clk : Clock) (p : Process) :
  inv h p -> locks_ok p -> locks_ok (step h tid clk p).
Proof.
  intros Hinv Hlocks. unfold step.
  destruct (callers p !! tid) as [l |] eqn:Hl; [| exact Hlocks].
  pose proof (inv_pcs h p Hinv tid l Hl) as Hok.
  destruct l as [| | | | mid | | | | sg | sg | sg id |]; simpl in Hok.
  - (* AtDo *)
    apply (locks_goto_outside p p tid AtDo); auto;
      [destruct (once_done p); reflexivity |].
    apply (once_unchanged p p tid AtDo); auto.
    destruct (once_done p); reflexivity.
  - (* AtLock *)
    destruct (once_m p) as [holder |] eqn:Hm; [exact Hlocks |].
    apply (locks_goto_outside p (set_once_m (Some tid) p) tid AtLock); auto.
    simpl. intros t Ht. inversion Ht; subst. auto.
  - (* AtRecheck *)
    apply (locks_goto_outside p p tid AtRecheck); auto;
      [destruct (once_done p); reflexivity |].
    apply (once_unchanged p p tid AtRecheck); auto.
    destruct (once_done p); reflexivity.
  - (* AtGetMachineID *)
    apply (locks_goto_outside p p tid AtGetMachineID); auto.
    apply (once_unchanged p p tid AtGetMachineID); auto.
  - (* AtNew *)
    destruct Hok as (_ & _ & [Hheap _] & _).
    apply (locks_goto p (construct mid p) tid (AtNew mid)); auto.
    + apply (once_unchanged p (construct mid p) tid (AtNew mid));
        auto.
    + intros i li [[-> ->] | [Hne Hi]] Hin; [discriminate |].
      destruct (body_holds p Hlocks i li Hi Hin) as (inst & Hinst & _).
      rewrite Hheap in Hinst. discriminate.
    + discriminate.
    + unfold construct. simpl. rewrite Hheap. simpl.
      intros inst Hinst Hmx. inversion Hinst; subst. discriminate.
  - (* AtStore *)
    apply (locks_goto_outside p (set_once_done p) tid AtStore); auto.
    apply (once_unchanged p (set_once_done p) tid AtStore); auto.
  - (* AtUnlock *)
    apply (locks_goto_outside p (set_once_m None p) tid AtUnlock); auto.
    simpl. discriminate.
  - (* AtMint *)
    destruct (snowflakeGenerator p);
      apply (locks_goto_outside p p tid AtMint); auto;
      apply (once_unchanged p p tid AtMint); auto.
  - (* AtMintLock *)
    destruct Hok as (Hdone & ->).
    destruct (constructed_lookup h p (inv_done h p Hinv Hdone))
      as (_ & inst & Hinst).
    rewrite Hinst. destruct (mutex inst) eqn:Hmx; [exact Hlocks |].
    assert (Hnew : heap (store 0 (mkInstance (gen inst) true) p) !! 0%nat
                   = Some (mkInstance (gen inst) true)).
    { simpl. apply list_lookup_insert_eq. eapply lookup_lt_Some; eauto. }
    assert (Hnobody : forall i li, callers p !! i = Some li ->
                                   in_body li = false).
    { intros i li Hi. destruct (in_body li) eqn:Hin; [| reflexivity].
      destruct (body_holds p Hlocks i li Hi Hin) as (inst' & Hinst' & Hmx').
      congruence. }
    apply (locks_goto p (store 0 (mkInstance (gen inst) true) p) tid
             (AtMintLock 0)); auto.
    + apply (once_unchanged p (store 0 (mkInstance (gen inst) true) p) tid
               (AtMintLock 0)); auto.
    + intros i li _ _. eauto.
    + intros _ i li _ Hi. eauto.
  - (* AtMintBody *)
    destruct Hok as (Hdone & ->).
    destruct (constructed_lookup h p (inv_done h p Hinv Hdone))
      as (_ & inst & Hinst).
    rewrite Hinst.
    destruct (Snowflake.GenerateSnowflakeID (gen inst) clk)
      as [[id gen'] |] eqn:Hmint; [| exact Hlocks].
    apply (locks_goto p (store 0 (mkInstance gen' false) p) tid
             (AtMintBody 0)); auto.
    + apply (once_unchanged p (store 0 (mkInstance gen' false) p) tid
               (AtMintBody 0)); auto.
    + intros i li [[-> ->] | [Hne Hi]] Hin; [discriminate |].
      elim Hne. exact (body_alone p Hlocks i tid li _ Hi Hl Hin eq_refl).
    + discriminate.
    + simpl. rewrite list_lookup_insert_eq by (eapply lookup_lt_Some; eauto).
      intros inst' Heq Hmx. inversion Heq; subst. discriminate.
  - (* Returned *) exact Hlocks.
  - (* Crashed *) exact Hlocks.
Qed.

Lemma run_locks (schedule : list (nat * Clock)) :
  forall p, inv h p -> locks_ok p -> locks_ok (run h schedule p).
Proof.
  induction schedule as [| [tid clk] rest IH]; intros p Hinv Hlocks; simpl.
  - exact Hlocks.
  - apply IH; [apply step_inv, Hinv | apply step_locks; assumption].
Qed.

Lemma goto_changes (p q : Process) (t : nat) (l l' : pc) :
  callers p !! t = Some l -> callers q = callers p -> l' <> l ->
  goto t l' q <> p.
Proof.
  intros Hl Hcallers Hne Heq. apply (f_equal callers) in Heq.
  simpl in Heq. rewrite Hcallers in Heq.
  assert (Hnew : <[t := l']> (callers p) !! t = Some l')
    by (apply list_lookup_insert_eq; eapply lookup_lt_Some; eauto).
  rewrite Heq in Hnew. congruence.
Qed.

(** A call inside [doSlow] is never blocked. *)
Lemma doSlow_moves (t : nat) (clk : Clock) (p : Process) (l : pc) :
  callers p !! t = Some l -> in_doSlow l = true -> step h t clk p <> p.
Proof.
  intros Hl Hin. unfold step. rewrite Hl.
  destruct l as [| | | | mid | | | | sg | sg | sg id |]; try discriminate Hin.
  - destruct (once_done p);
      apply (goto_changes p p t AtRecheck); auto; discriminate.
  - apply (goto_changes p p t AtGetMachineID); auto; discriminate.
  - apply (goto_changes p _ t (AtNew mid)); auto; discriminate.
  - apply (goto_changes p _ t AtStore); auto; discriminate.
  - apply (goto_changes p _ t AtUnlock); auto; discriminate.
Qed.

(** A call inside the method body returns as soon as the clock it reads
    is below the largest [int64]. *)
Lemma body_moves (t : nat) (clk : Clock) (p : Process) (l : pc) :
  inv h p ->
  callers p !! t = Some l -> in_body l = true ->
  Int64.min_int <= now clk < Int64.max_int ->
  step h t clk p <> p.
Proof.
  intros Hinv Hl Hin Hclk. unfold step. rewrite Hl.
  destruct l; try discriminate Hin.
  destruct (inv_pcs h p Hinv t _ Hl) as (Hdone & ->).
  destruct (constructed_lookup h p (inv_done h p Hinv Hdone))
    as (_ & inst & ->).
  destruct (mint_some (gen inst) clk Hclk) as (id & gen' & ->).
  apply (goto_changes p _ t (AtMintBody 0)); auto; discriminate.
Qed.

End Locks.

(** Mutual exclusion.  However the calls are interleaved, no two of them
    are inside the body of the method (lines 107-132) at once, and no two
    of them are inside the slow path of [once.Do], where
    [initSnowflakeGenerator] runs. *)
Theorem mutexes_exclude (h : Host) (n : nat) (schedule : list (nat * Clock)) :
  let p := run h schedule (start n) in
  (forall i j li lj,
     callers p !! i = Some li -> callers p !! j = Some lj ->
     in_body li = true -> in_body lj = true -> i = j) /\
  (forall i j li lj,
     callers p !! i = Some li -> callers p !! j = Some lj ->
     in_doSlow li = true -> in_doSlow lj = true -> i = j).
Proof.
  intros p.
  assert (Hinv : inv h p) by apply run_inv, inv_start.
  assert (Hlocks : locks_ok p)
    by (apply (run_locks h); [apply inv_start | apply locks_start]).
  split.
  - exact (body_alone p Hlocks).
  - intros i j li lj Hi Hj Hini Hinj.
    pose proof (inv_pcs h p Hinv i li Hi) as Hoki.
    pose proof (inv_pcs h p Hinv j lj Hj) as Hokj.
    assert (Hmi : once_m p = Some i)
      by (destruct li; try discriminate Hini; simpl in Hoki; tauto).
    assert (Hmj : once_m p = Some j)
      by (destruct lj; try discriminate Hinj; simpl in Hokj; tauto).
    congruence.
Qed.

(** Freedom from deadlock.  However the calls have been interleaved so
    far, as long as one of them has not returned some call can act: there
    is a call whose next action changes the state of the process, whatever
    clock below the largest [int64] it reads. *)
Theorem registry_never_deadlocks
    (h : Host) (n : nat) (schedule : list (nat * Clock)) (tid : nat) (l : pc) :
  let p := run h schedule (start n) in
  callers p !! tid = Some l ->
  finished l = false ->
  exists t, forall clk,
    Int64.min_int <= now clk < Int64.max_int -> step h t clk p <> p.
Proof.
  intros p Hl Hfin.
  assert (Hinv : inv h p) by apply run_inv, inv_start.
  assert (Hlocks : locks_ok p)
    by (apply (run_locks h); [apply inv_start | apply locks_start]).
  pose proof (inv_pcs h p Hinv tid l Hl) as Hok.
  destruct l as [| | | | mid | | | | sg | sg | sg id |]; simpl in Hok;
    try discriminate Hfin; try contradiction;
    try (exists tid; intros clk _; apply (doSlow_moves h tid clk p _ Hl);
         reflexivity).
  - (* AtDo *)
    exists tid. intros clk _. unfold step. rewrite Hl.
    destruct (once_done p); apply (goto_changes p p tid AtDo); auto;
      discriminate.
  - (* AtLock *)
    destruct (once_m p) as [holder |] eqn:Hm.
    + destruct (once_holder p Hlocks holder Hm) as (lh & Hlh & Hin).
      exists holder. intros clk _. exact (doSlow_moves h holder clk p lh Hlh Hin).
    + exists tid. intros clk _. unfold step. rewrite Hl, Hm.
      apply (goto_changes p _ tid AtLock); auto; discriminate.
  - (* AtMint *)
    exists tid. intros clk _. unfold step. rewrite Hl.
    destruct (snowflakeGenerator p);
      apply (goto_changes p p tid AtMint); auto; discriminate.
  - (* AtMintLock *)
    destruct Hok as (Hdone & ->).
    destruct (constructed_lookup h p (inv_done h p Hinv Hdone))
      as (_ & inst & Hinst).
    destruct (mutex inst) eqn:Hmx.
    + destruct (mutex_holder p Hlocks inst Hinst Hmx) as (i & li & Hi & Hin).
      exists i. intros clk Hclk. exact (body_moves h i clk p li Hinv Hi Hin Hclk).
    + exists tid. intros clk _. unfold step. rewrite Hl, Hinst, Hmx.
      apply (goto_changes p _ tid (AtMintLock 0)); auto; discriminate.
  - (* AtMintBody *)
    exists tid. intros clk Hclk.
    exact (body_moves h tid clk p _ Hinv Hl eq_refl Hclk).
Qed.

(** An instance: call 0 holds the mutex of [once] and call 1 is blocked on
    it. *)
Lemma registry_never_deadlocks_witness :
  let h := mkHost ([], None) 4242 in
  let schedule := [(0%nat, tick 7); (1%nat, tick 7); (0%nat, tick 7);
                   (1%nat, tick 7)] in
  callers (run h schedule (start 2)) = [AtRecheck; AtLock] /\
  exists t, forall clk,
    Int64.min_int <= now clk < Int64.max_int ->
    step h t clk (run h schedule (start 2)) <> run h schedule (start 2).
Proof.
  intros h schedule. split; [reflexivity |].
  apply (registry_never_deadlocks h 2 schedule 1 AtLock); reflexivity.
Defined.

End RegistryLocksSpec.
